(** * Ingestion pipeline of llm-service: a shallow embedding

    This development embeds the PDF ingestion subsystem of llm-service:
    - [src/src/ingestion/ingestion.processor.ts] (the BullMQ worker),
    - [src/src/ingestion/ingestion.controller.ts] (intake endpoints),
    - [src/src/ingestion/ingestion.service.ts] (the TypeORM registry access),
    - the [FileUpload] entity (its unique columns),
    together with the text splitter the worker calls
    ([RecursiveCharacterTextSplitter] of @langchain/textsplitters). *)

From Stdlib Require Import String Ascii List Bool Arith Lia.
Import ListNotations.
Open Scope list_scope.

(* ------------------------------------------------------------------ *)
(** ** Strings: JavaScript [trim] and [length] *)

Module JsString.

(** Characters removed by [String.prototype.trim] (the ASCII ones). *)
Definition is_ws (c : ascii) : bool :=
  match nat_of_ascii c with
  | 9 | 10 | 11 | 12 | 13 | 32 => true
  | _ => false
  end.

Fixpoint drop_ws (l : list ascii) : list ascii :=
  match l with
  | [] => []
  | c :: l' => if is_ws c then drop_ws l' else l
  end.

(** [s.trim()]: leading and trailing white space removed. *)
Definition trim (s : string) : string :=
  string_of_list_ascii (rev (drop_ws (rev (drop_ws (list_ascii_of_string s))))).

(** [text.includes(sep)]. *)
Fixpoint includes (sep text : string) : bool :=
  String.prefix sep text ||
  match text with
  | EmptyString => false
  | String _ t => includes sep t
  end.

Definition is_empty (s : string) : bool := String.eqb s EmptyString.

End JsString.

(* ------------------------------------------------------------------ *)
(** ** [RecursiveCharacterTextSplitter] (@langchain/textsplitters)

    The worker splits text with this library class, configured with
    [chunkSize]/[chunkOverlap]; the defaults it keeps are
    [separators]: a blank line, a newline, a space and the empty separator;
    [keepSeparator = true],
    [stripWhitespace = true], [lengthFunction = s => s.length]. *)

Module TextSplitter.
Import JsString.

Definition nl : string := String (ascii_of_nat 10) EmptyString.

Definition separators : list string :=
  [append nl nl; nl; " "%string; EmptyString].

Definition keepSeparator : bool := true.

(** [text.split(new RegExp("(?=" + sep + ")"))]: the text is cut before every
    occurrence of [sep] that does not start the current piece. *)
Fixpoint split_keep (sep cur text : string) : list string :=
  match text with
  | EmptyString => [cur]
  | String c t =>
      if negb (is_empty cur) && String.prefix sep text
      then cur :: split_keep sep (String c EmptyString) t
      else split_keep sep (append cur (String c EmptyString)) t
  end.

(** [text.split] on the empty separator: one piece per character. *)
Fixpoint chars (text : string) : list string :=
  match text with
  | EmptyString => []
  | String c t => String c EmptyString :: chars t
  end.

(** [splitOnSeparator(text, separator)] with [keepSeparator = true]. *)
Definition splitOnSeparator (text sep : string) : list string :=
  filter (fun s => negb (is_empty s))
    (if is_empty sep then chars text else split_keep sep EmptyString text).

(** The loop of [_splitText] that chooses the separator: the first one that
    is empty or occurs in the text; [newSeparators] are those after it
    (undefined when the empty separator is chosen). *)
Fixpoint pick_separator (seps : list string) (dflt text : string)
  : string * option (list string) :=
  match seps with
  | [] => (dflt, None)
  | s :: rest =>
      if is_empty s then (s, None)
      else if includes s text then (s, Some rest)
      else pick_separator rest dflt text
  end.

Definition last_separator (seps : list string) : string := last seps EmptyString.

(** [joinDocs]: join, strip white space, [null] when empty. *)
Definition joinDocs (docs : list string) (sep : string) : option string :=
  let text := trim (String.concat sep docs) in
  if is_empty text then None else Some text.

Definition opt_list {A} (o : option A) : list A :=
  match o with Some x => [x] | None => [] end.

(** The popping [while] loop of [mergeSplits]; [total] is the summed length
    of [cur]. *)
Fixpoint pop_front (chunkSize chunkOverlap len seplen : nat)
    (cur : list string) (total : nat) : list string * nat :=
  match cur with
  | [] => ([], total)
  | d0 :: rest =>
      if (chunkOverlap <? total)
         || ((chunkSize <? total + len + List.length cur * seplen) && (0 <? total))
      then pop_front chunkSize chunkOverlap len seplen rest (total - String.length d0)
      else (cur, total)
  end.

(** The [for] loop of [mergeSplits], with its state [docs], [currentDoc]
    and [total]. *)
Fixpoint merge_loop (chunkSize chunkOverlap : nat) (sep : string)
    (splits : list string) (cur : list string) (total : nat) (docs : list string)
  : list string :=
  match splits with
  | [] => docs ++ opt_list (joinDocs cur sep)
  | d :: rest =>
      let len := String.length d in
      let '(docs', cur', total') :=
        if chunkSize <? total + len + List.length cur * String.length sep then
          match cur with
          | [] => (docs, cur, total)
          | _ :: _ =>
              let docs1 := docs ++ opt_list (joinDocs cur sep) in
              let '(c2, t2) :=
                pop_front chunkSize chunkOverlap len (String.length sep) cur total in
              (docs1, c2, t2)
          end
        else (docs, cur, total) in
      merge_loop chunkSize chunkOverlap sep rest (cur' ++ [d]) (total' + len) docs'
  end.

Definition mergeSplits (chunkSize chunkOverlap : nat) (splits : list string)
    (sep : string) : list string :=
  merge_loop chunkSize chunkOverlap sep splits [] 0 [].

(** The [for (const s of splits)] loop of [_splitText]: [goodSplits] and
    [finalChunks] are its state, [recur] the recursive call. *)
Fixpoint split_go (chunkSize chunkOverlap : nat) (sep_ : string)
    (newSeparators : option (list string)) (recur : string -> list string -> list string)
    (splits good final : list string) : list string :=
  let flush (good : list string) :=
    match good with
    | [] => []
    | _ :: _ => mergeSplits chunkSize chunkOverlap good sep_
    end in
  match splits with
  | [] => final ++ flush good
  | s :: rest =>
      if String.length s <? chunkSize
      then split_go chunkSize chunkOverlap sep_ newSeparators recur rest (good ++ [s]) final
      else
        let final1 := final ++ flush good in
        let final2 :=
          final1 ++
          match newSeparators with
          | None => [s]
          | Some ns => recur s ns
          end in
        split_go chunkSize chunkOverlap sep_ newSeparators recur rest [] final2
  end.

(** [_splitText(text, separators)]. The recursion is on [newSeparators], a
    strict suffix of [separators]; [fuel] bounds its depth and is started at
    the length of the separator list, which it never runs out of. *)
Fixpoint splitText_aux (fuel chunkSize chunkOverlap : nat) (text : string)
    (seps : list string) : list string :=
  match fuel with
  | 0 => []
  | S fuel' =>
      let '(separator, newSeparators) :=
        pick_separator seps (last_separator seps) text in
      let splits := splitOnSeparator text separator in
      let sep_ := if keepSeparator then EmptyString else separator in
      split_go chunkSize chunkOverlap sep_ newSeparators
        (fun s ns => splitText_aux fuel' chunkSize chunkOverlap s ns) splits [] []
  end.

Definition splitText (chunkSize chunkOverlap : nat) (text : string) : list string :=
  splitText_aux (List.length separators) chunkSize chunkOverlap text separators.

End TextSplitter.

(* ------------------------------------------------------------------ *)
(** ** The validate-and-split step of [IngestionProcessor.process] *)

Module Chunks.
Import JsString TextSplitter.

(** [DocChunk]: the text and the page number ([metadata.loc.pageNumber]). *)
Record DocChunk := mkChunk { pageContent : string; pageNumber : nat }.

(** [splitter.splitDocuments(docs)]: every document is split on its own and
    its pieces keep the document's metadata. The constructor of the splitter
    throws when [chunkOverlap >= chunkSize] ([None]). *)
Definition splitDocuments (chunkSize chunkOverlap : nat) (docs : list DocChunk)
  : option (list DocChunk) :=
  if chunkSize <=? chunkOverlap then None
  else Some (flat_map (fun d =>
          map (fun t => mkChunk t (pageNumber d))
              (splitText chunkSize chunkOverlap (pageContent d))) docs).

(** [splitOversizedChunk(chunk, maxSize)]: overlap 50, and the original chunk
    when splitting throws. *)
Definition splitOversizedChunk (chunk : DocChunk) (maxSize : nat) : list DocChunk :=
  match splitDocuments maxSize 50 [chunk] with
  | Some subDocs => subDocs
  | None => [chunk]
  end.

(** The [for (const chunk of chunks)] loop building [validChunks]. *)
Fixpoint validate_loop (chunks : list DocChunk) (validChunks : list DocChunk)
  : list DocChunk :=
  match chunks with
  | [] => validChunks
  | chunk :: rest =>
      let content := trim (pageContent chunk) in
      if String.length content <? 10 then validate_loop rest validChunks
      else if 1500 <? String.length content then
        let subChunks :=
          splitOversizedChunk (mkChunk content (pageNumber chunk)) 1500 in
        validate_loop rest (validChunks ++ subChunks)
      else validate_loop rest (validChunks ++ [mkChunk content (pageNumber chunk)])
  end.

Definition validateChunks (chunks : list DocChunk) : list DocChunk :=
  validate_loop chunks [].

End Chunks.

(* ------------------------------------------------------------------ *)
(** ** Outcomes of fallible code *)

Inductive Result (E A : Type) : Type :=
| Ok (a : A)
| Err (e : E).
Arguments Ok {E A} a.
Arguments Err {E A} e.

(* ------------------------------------------------------------------ *)
(** ** The Upload Metadata Registry: the [file_uploads] table *)

Module Registry.

Inductive Status := Processing | Completed | Failed.

Definition status_eqb (a b : Status) : bool :=
  match a, b with
  | Processing, Processing | Completed, Completed | Failed, Failed => true
  | _, _ => false
  end.

(** The [FileUpload] entity; [uploaded_at]/[updated_at] are set by the
    database and left out. Job ids are BullMQ's numeric ids. *)
Record FileUpload := mkUpload {
  id : nat;
  content_hash : string;          (* unique *)
  original_filename : string;
  uploaded_by : option string;
  job_id : nat;                   (* unique *)
  r2_object_key : string;
  status : Status;
  chunk_count : option nat;
  error_message : option string
}.

(** The fields given to [IngestionService.create]. *)
Record NewUpload := mkNew {
  n_content_hash : string;
  n_original_filename : string;
  n_uploaded_by : option string;
  n_job_id : nat;
  n_r2_object_key : string;
  n_status : Status
}.

Definition table := list FileUpload.

(** [findByHash]: [findOne({ where: { content_hash } })]. *)
Definition findByHash (t : table) (h : string) : option FileUpload :=
  find (fun r => String.eqb (content_hash r) h) t.

(** [findByJobId]. *)
Definition findByJobId (t : table) (j : nat) : option FileUpload :=
  find (fun r => Nat.eqb (job_id r) j) t.

Inductive DbError := UniqueViolation (column : string).

(** [create]: [repository.save(repository.create(data))] without a value
    for the generated primary key [id] is an INSERT; the database rejects it
    when it repeats the value of a unique column ([content_hash], [job_id]).
    The generated [id] is fresh (rows are never deleted). When both columns
    repeat, the database reports one of them; the model names
    [content_hash], and no statement below depends on which. The varchar
    lengths of the columns (64, 255 and 500) are not checked here: the
    statements below are about inputs within them, about a successful
    insert, or about invariants that a rejected insert keeps as well. *)
Definition create (t : table) (d : NewUpload) : Result DbError table :=
  if existsb (fun r => String.eqb (content_hash r) (n_content_hash d)) t
  then Err (UniqueViolation "content_hash")
  else if existsb (fun r => Nat.eqb (job_id r) (n_job_id d)) t
  then Err (UniqueViolation "job_id")
  else Ok (t ++ [mkUpload (List.length t) (n_content_hash d) (n_original_filename d)
                   (n_uploaded_by d) (n_job_id d) (n_r2_object_key d) (n_status d)
                   None None]).

Definition set_opt {A} (o : option A) (old : option A) : option A :=
  match o with Some v => Some v | None => old end.

(** [updateStatus(contentHash, status, chunkCount?, errorMessage?)]: an
    UPDATE of the rows with that hash; TypeORM skips [undefined] fields. *)
Definition updateStatus (t : table) (h : string) (st : Status)
    (chunkCount : option nat) (errorMessage : option string) : table :=
  map (fun r =>
         if String.eqb (content_hash r) h
         then mkUpload (id r) (content_hash r) (original_filename r) (uploaded_by r)
                (job_id r) (r2_object_key r) st
                (set_opt chunkCount (chunk_count r))
                (set_opt errorMessage (error_message r))
         else r) t.

(** At most one row per content hash. *)
Definition hashes_unique (t : table) : Prop :=
  NoDup (map content_hash t).

End Registry.

(* ------------------------------------------------------------------ *)
(** ** The BullMQ queue [pdf-ingestion] *)

Module Queue.

(** The payload built by the controller. *)
Record PdfJobData := mkData {
  objectKey : string;
  fileName : string;
  fileHash : string;
  userId : option string
}.

(** The states [job.getState()] reports. *)
Inductive JobState :=
| Waiting | Active | Delayed | Prioritized | WaitingChildren
| JCompleted | JFailed | Unknown.

(** The strings [job.getState()] returns for them. *)
Definition state_name (st : JobState) : string :=
  match st with
  | Waiting => "waiting"
  | Active => "active"
  | Delayed => "delayed"
  | Prioritized => "prioritized"
  | WaitingChildren => "waiting-children"
  | JCompleted => "completed"
  | JFailed => "failed"
  | Unknown => "unknown"
  end.

Record Job := mkJob { jid : nat; jstate : JobState; jdata : PdfJobData }.

Record Queue := mkQueue { jobs : list Job; next_id : nat }.

(** [queue.add(name, data)]: a waiting job with the next id. *)
Definition add (q : Queue) (d : PdfJobData) : Job * Queue :=
  let j := mkJob (next_id q) Waiting d in
  (j, mkQueue (jobs q ++ [j]) (S (next_id q))).

(** [queue.getJob(id)]. *)
Definition getJob (q : Queue) (i : nat) : option Job :=
  find (fun j => Nat.eqb (jid j) i) (jobs q).

End Queue.

(* ------------------------------------------------------------------ *)
(** ** [IngestionController] *)

Module Controller.
Import Registry Queue.

Record State := mkState { queue : Queue.Queue; registry : table }.

Inductive HttpError :=
| NotFoundException (message : string)
| Db (e : DbError).

(** Decimal rendering of a number, as in a template literal. *)
Fixpoint uint_to_string (d : Decimal.uint) : string :=
  match d with
  | Decimal.Nil => EmptyString
  | Decimal.D0 d => String "0" (uint_to_string d)
  | Decimal.D1 d => String "1" (uint_to_string d)
  | Decimal.D2 d => String "2" (uint_to_string d)
  | Decimal.D3 d => String "3" (uint_to_string d)
  | Decimal.D4 d => String "4" (uint_to_string d)
  | Decimal.D5 d => String "5" (uint_to_string d)
  | Decimal.D6 d => String "6" (uint_to_string d)
  | Decimal.D7 d => String "7" (uint_to_string d)
  | Decimal.D8 d => String "8" (uint_to_string d)
  | Decimal.D9 d => String "9" (uint_to_string d)
  end.

Definition nat_to_string (n : nat) : string := uint_to_string (Nat.to_uint n).

Definition dquote : string := String (ascii_of_nat 34) EmptyString.

(** A pre-signed PUT URL of [StorageService.getUploadUrl(key, expiresIn)],
    represented by what it is signed for. *)
Record PresignedUrl := mkUrl { url_key : string; url_expires_in : nat }.

Definition storage_getUploadUrl (key : string) (expiresIn : nat) : PresignedUrl :=
  mkUrl key expiresIn.

Inductive UploadUrlResponse :=
| UDuplicate (message : string) (skipUpload : bool) (metadata : FileUpload)
| UProcessing (message : string) (jobId : nat) (skipUpload : bool)
| UTarget (uploadUrl : PresignedUrl) (objectKey : string) (fileHash : string)
          (expiresIn : nat).

(** The object key [pdfs/${fileHash}-${Date.now()}-${fileName}]. *)
Definition object_key (fileHash : string) (now : nat) (fileName : string) : string :=
  ("pdfs/" ++ fileHash ++ "-" ++ nat_to_string now ++ "-" ++ fileName)%string.

(** [getUploadUrl(dto)] at time [now]; it reads the registry only. *)
Definition getUploadUrl (s : State) (now : nat) (fileName fileHash : string)
  : Result HttpError UploadUrlResponse * State :=
  let fallthrough :=
    let objectKey := object_key fileHash now fileName in
    let uploadUrl := storage_getUploadUrl objectKey 3600 in
    (Ok (UTarget uploadUrl objectKey fileHash 3600), s) in
  match findByHash (registry s) fileHash with
  | Some existingFile =>
      match status existingFile with
      | Completed =>
          (Ok (UDuplicate ("File already processed as " ++ dquote
                           ++ original_filename existingFile ++ dquote)%string
                 true existingFile), s)
      | Processing =>
          (Ok (UProcessing "File is currently being processed"
                 (job_id existingFile) true), s)
      | Failed => fallthrough
      end
  | None => fallthrough
  end.

Inductive TriggerResponse :=
| TAlreadyProcessing (jobId : nat)
| TQueued (jobId : nat).

(** [triggerProcessing(dto)]: re-check, enqueue, then insert the record. *)
Definition triggerProcessing (s : State) (objectKey fileName fileHash : string)
    (userId : option string) : Result HttpError TriggerResponse * State :=
  match findByHash (registry s) fileHash with
  | Some existingFile =>
      if status_eqb (status existingFile) Processing
      then (Ok (TAlreadyProcessing (job_id existingFile)), s)
      else
        let '(job, q') := add (queue s) (mkData objectKey fileName fileHash userId) in
        match create (registry s)
                (mkNew fileHash fileName userId (jid job) objectKey Processing) with
        | Ok t' => (Ok (TQueued (jid job)), mkState q' t')
        | Err e => (Err (Db e), mkState q' (registry s))
        end
  | None =>
      let '(job, q') := add (queue s) (mkData objectKey fileName fileHash userId) in
      match create (registry s)
              (mkNew fileHash fileName userId (jid job) objectKey Processing) with
      | Ok t' => (Ok (TQueued (jid job)), mkState q' t')
      | Err e => (Err (Db e), mkState q' (registry s))
      end
  end.

Inductive RetryResponse :=
| RCannotRetry (message : string)
| RQueued (newJobId originalJobId : nat).

Definition terminal (st : JobState) : bool :=
  match st with JFailed | JCompleted => true | _ => false end.

(** [retryJob(jobId)]. *)
Definition retryJob (s : State) (jobId : nat) : Result HttpError RetryResponse * State :=
  match getJob (queue s) jobId with
  | None => (Err (NotFoundException "Job not found"), s)
  | Some job =>
      if negb (terminal (jstate job))
      then (Ok (RCannotRetry ("Cannot retry job in state: " ++ state_name (jstate job))%string), s)
      else
        let d := jdata job in
        let '(newJob, q') :=
          add (queue s) (mkData (objectKey d) (fileName d) (fileHash d) (userId d)) in
        match create (registry s)
                (mkNew (fileHash d) (fileName d) (userId d) (jid newJob)
                   (objectKey d) Processing) with
        | Ok t' => (Ok (RQueued (jid newJob) jobId), mkState q' t')
        | Err e => (Err (Db e), mkState q' (registry s))
        end
  end.

End Controller.

(* ------------------------------------------------------------------ *)
(** ** [IngestionProcessor]: the worker

    The worker is a computation over a world holding the log of the external
    calls it made, whether the temporary PDF file exists, the registry, and
    the two locals that its [catch] blocks read ([tempPath] of [process] and
    the [embeddings] array of [embedChunksIndividually]). An environment
    decides which external call throws (by its position in the log) and what
    the successful ones return. Logging is left out. *)

Module Worker.
Import JsString TextSplitter Chunks Registry Queue.

Definition vector := list nat.

(** A Qdrant point; its fresh [id] (a uuid) and [ingested_at] are left out. *)
Record Point := mkPoint {
  p_vector : vector;
  p_page_content : string;
  p_content_hash : string;
  p_source_file : string;
  p_chunk_index : nat;
  p_page_number : nat;
  p_r2_object_key : string
}.

Inductive Call :=
| CUpdateProgress (p : nat)                 (* job.updateProgress *)
| CDownload (key : string)                  (* storageService.downloadFile *)
| CWriteTemp                                (* fs.writeFile(tempPath, ...) *)
| CLoad                                     (* loader.load() *)
| CUnlink                                   (* fs.unlink(tempPath) *)
| CEmbedDocuments (texts : list string)     (* embeddings.embedDocuments *)
| CEmbedQuery (text : string)               (* embeddings.embedQuery *)
| CUpsert (points : list Point)             (* qdrantClient.upsert('documents') *)
| CUpdateStatus (hash : string) (st : Status)
    (chunkCount : option nat) (err : option string)  (* ingestionService.updateStatus *)
| CDeleteFile (key : string).               (* the S3 delete of deleteFile *)

Record Env := mkEnv {
  env_ok : nat -> bool;                    (* does the n-th external call succeed *)
  env_msg : nat -> string;                 (* message of the error it throws *)
  env_write_partial : bool;                (* a failed writeFile left the file *)
  env_pages : list DocChunk;               (* the pages loader.load() returns *)
  env_batch : list string -> list vector;  (* embedDocuments' vectors *)
  env_query : nat -> string -> vector      (* embedQuery's vector *)
}.

Record World := mkWorld {
  calls : list Call;
  temp_exists : bool;
  db : table;
  tempPath : bool;                         (* [tempPath !== null] *)
  embs : list (option vector)              (* [embeddings] of the fallback *)
}.

Definition init_world (t : table) : World := mkWorld [] false t false [].

Definition M (A : Type) : Type := World -> Result string A * World.

Definition ret {A} (a : A) : M A := fun w => (Ok a, w).

Definition bind {A B} (m : M A) (k : A -> M B) : M B :=
  fun w => match m w with
           | (Ok a, w') => k a w'
           | (Err e, w') => (Err e, w')
           end.

Definition throw {A} (e : string) : M A := fun w => (Err e, w).

(** [try { m } catch (e) { h(e.message) }]; the handler runs in the world
    reached when [m] threw. *)
Definition try_catch {A} (m : M A) (h : string -> M A) : M A :=
  fun w => match m w with
           | (Ok a, w') => (Ok a, w')
           | (Err e, w') => h e w'
           end.

Notation "x <- m ;; k" := (bind m (fun x => k))
  (at level 61, m at next level, right associativity).
Notation "m ;; k" := (bind m (fun _ => k)) (at level 61, right associativity).

Definition set_temp (b : bool) (w : World) : World :=
  mkWorld (calls w) b (db w) (tempPath w) (embs w).
Definition set_db (t : table) (w : World) : World :=
  mkWorld (calls w) (temp_exists w) t (tempPath w) (embs w).
Definition log (c : Call) (w : World) : World :=
  mkWorld (calls w ++ [c]) (temp_exists w) (db w) (tempPath w) (embs w).

Section Effects.
Variable env : Env.

Definition on_success (c : Call) (w : World) : World :=
  match c with
  | CWriteTemp => set_temp true w
  | CUnlink => set_temp false w
  | CUpdateStatus h st cc em => set_db (updateStatus (db w) h st cc em) w
  | _ => w
  end.

Definition on_failure (c : Call) (w : World) : World :=
  match c with
  | CWriteTemp => if env_write_partial env then set_temp true w else w
  | _ => w
  end.

(** One external call; it returns its position in the log. *)
Definition external (c : Call) : M nat :=
  fun w =>
    let n := List.length (calls w) in
    if env_ok env n then (Ok n, on_success c (log c w))
    else (Err (env_msg env n), on_failure c (log c w)).

Definition updateProgress (p : nat) : M unit := external (CUpdateProgress p) ;; ret tt.

(** [StorageService.downloadFile]: rethrows with its own message. *)
Definition downloadFile (key : string) : M unit :=
  try_catch (external (CDownload key) ;; ret tt)
    (fun m => throw ("Storage download failed: " ++ m)%string).

Definition writeFile : M unit := external CWriteTemp ;; ret tt.
Definition unlink : M unit := external CUnlink ;; ret tt.
Definition load : M (list DocChunk) := external CLoad ;; ret (env_pages env).

Definition embedDocuments (texts : list string) : M (list vector) :=
  external (CEmbedDocuments texts) ;; ret (env_batch env texts).

Definition embedQuery (text : string) : M vector :=
  n <- external (CEmbedQuery text) ;; ret (env_query env n text).

Definition upsert (points : list Point) : M unit := external (CUpsert points) ;; ret tt.

Definition svc_updateStatus (h : string) (st : Status) (cc : option nat)
    (em : option string) : M unit :=
  external (CUpdateStatus h st cc em) ;; ret tt.

(** [StorageService.deleteFile]: its errors are logged and swallowed. *)
Definition deleteFile (key : string) : M unit :=
  try_catch (external (CDeleteFile key) ;; ret tt) (fun _ => ret tt).

(** The locals. *)
Definition set_tempPath (b : bool) : M unit :=
  fun w => (Ok tt, mkWorld (calls w) (temp_exists w) (db w) b (embs w)).
Definition get_tempPath : M bool := fun w => (Ok (tempPath w), w).
Definition set_embs (l : list (option vector)) : M unit :=
  fun w => (Ok tt, mkWorld (calls w) (temp_exists w) (db w) (tempPath w) l).
Definition push_emb (o : option vector) : M unit :=
  fun w => (Ok tt, mkWorld (calls w) (temp_exists w) (db w) (tempPath w) (embs w ++ [o])).
Definition get_embs : M (list (option vector)) := fun w => (Ok (embs w), w).

(** The [for] loop of [embedChunksIndividually]; [n] is [chunks.length] and
    the progress [50 + Math.floor((i / n) * 30)] is taken on naturals. *)
Fixpoint embed_loop (chunks : list DocChunk) (i n : nat) : M unit :=
  match chunks with
  | [] => ret tt
  | c :: rest =>
      try_catch
        (emb <- embedQuery (pageContent c) ;;
         push_emb (Some emb) ;;
         updateProgress (50 + Nat.div (i * 30) n))
        (fun _ => push_emb None) ;;
      embed_loop rest (S i) n
  end.

Definition embedChunksIndividually (chunks : list DocChunk) : M (list (option vector)) :=
  set_embs [] ;; embed_loop chunks 0 (List.length chunks) ;; get_embs.

End Effects.

(** The [map((chunk, i) => ...)] building a point, [null] when
    [!embeddings[i]]. *)
Definition build_point (fileHash fileName objectKey : string)
    (embeddings : list (option vector)) (i : nat) (chunk : DocChunk) : option Point :=
  match nth_error embeddings i with
  | Some (Some v) =>
      Some (mkPoint v (pageContent chunk) fileHash fileName i (pageNumber chunk) objectKey)
  | _ => None
  end.

Fixpoint mapi_from {A B} (f : nat -> A -> B) (i : nat) (l : list A) : list B :=
  match l with
  | [] => []
  | x :: l' => f i x :: mapi_from f (S i) l'
  end.

(** [.filter((p) => p !== null)]. *)
Fixpoint drop_nulls {A} (l : list (option A)) : list A :=
  match l with
  | [] => []
  | Some x :: l' => x :: drop_nulls l'
  | None :: l' => drop_nulls l'
  end.

Definition validPoints (fileHash fileName objectKey : string)
    (validChunks : list DocChunk) (embeddings : list (option vector)) : list Point :=
  drop_nulls (mapi_from (build_point fileHash fileName objectKey embeddings) 0 validChunks).

Record ProcessResult := mkResult {
  r_status : string;
  totalChunks : nat;
  processedChunks : nat;
  r_fileHash : string
}.

Definition no_valid_chunks : string := "No valid chunks found in PDF".

Section Process.
Variable env : Env.

(** Steps 1 and 2 of the [try] block: download, then write the temporary
    file ([tempPath] is assigned before [fs.writeFile]). *)
Definition fetch_stage (d : PdfJobData) : M unit :=
  updateProgress env 10 ;;
  downloadFile env (objectKey d) ;;
  set_tempPath true ;;
  writeFile env.

(** Step 3: load and chunk (600/100), then delete the temporary file. *)
Definition load_stage : M (list DocChunk) :=
  updateProgress env 30 ;;
  docs <- load env ;;
  chunks <- match splitDocuments 600 100 docs with
            | Some cs => ret cs
            | None => throw "Cannot have chunkOverlap >= chunkSize"
            end ;;
  unlink env ;;
  set_tempPath false ;;
  ret chunks.

(** Step 4: batch embedding, and the one-by-one fallback when it throws. *)
Definition embed_stage (validChunks : list DocChunk) : M (list (option vector)) :=
  updateProgress env 50 ;;
  try_catch
    (vs <- embedDocuments env (map pageContent validChunks) ;; ret (map Some vs))
    (fun _ => embedChunksIndividually env validChunks).

(** Step 5: the points of the chunks with a vector, upserted in one call. *)
Definition store_stage (d : PdfJobData) (validChunks : list DocChunk)
    (embeddings : list (option vector)) : M (list Point) :=
  updateProgress env 80 ;;
  let points := validPoints (fileHash d) (fileName d) (objectKey d) validChunks embeddings in
  upsert env points ;;
  ret points.

(** Steps 6 and 7: the completed status with the point count, then the
    best-effort delete of the object. *)
Definition finalize_stage (d : PdfJobData) (points : list Point) : M unit :=
  svc_updateStatus env (fileHash d) Completed (Some (List.length points)) None ;;
  updateProgress env 95 ;;
  deleteFile env (objectKey d) ;;
  updateProgress env 100.

(** The [try] block of [process]. *)
Definition process_body (d : PdfJobData) : M ProcessResult :=
  fetch_stage d ;;
  chunks <- load_stage ;;
  let validChunks := validateChunks chunks in
  (if Nat.eqb (List.length validChunks) 0 then throw no_valid_chunks else ret tt) ;;
  embeddings <- embed_stage validChunks ;;
  points <- store_stage d validChunks embeddings ;;
  finalize_stage d points ;;
  ret (mkResult "success" (List.length chunks) (List.length points) (fileHash d)).

(** The [catch] block of [process]. *)
Definition process_failed (d : PdfJobData) (msg : string) : M ProcessResult :=
  tp <- get_tempPath ;;
  (if tp then try_catch (unlink env) (fun _ => ret tt) else ret tt) ;;
  svc_updateStatus env (fileHash d) Failed (Some 0) (Some msg) ;;
  throw msg.

Definition process (d : PdfJobData) : M ProcessResult :=
  try_catch (process_body d) (process_failed d).

End Process.

End Worker.

(* ------------------------------------------------------------------ *)
(** ** Concrete inputs used below *)

Module Scenarios.
Import Chunks Registry Queue Controller Worker.

Fixpoint rep (n : nat) (c : ascii) : string :=
  match n with 0 => EmptyString | S k => String c (rep k c) end.

(** A 1501-character chunk: 1495 letters, a space, five letters. *)
Definition long_text : string :=
  append (rep 1495 "a"%char) (append " " (rep 5 "b"%char)).

(** A job payload and its registry row after a failed run. *)
Definition job1 : PdfJobData := mkData "pdfs/h-1-a.pdf" "a.pdf" "h" None.

Definition row_failed : FileUpload :=
  mkUpload 0 "h" "a.pdf" None 1 "pdfs/h-1-a.pdf" Failed (Some 0) (Some "boom"%string).

Definition after_failure : State :=
  mkState (mkQueue [mkJob 1 JFailed job1] 2) [row_failed].

Definition pages : list DocChunk :=
  [mkChunk "Hello world, this is page one of the document." 1].

(** An environment where exactly the calls in [bad] fail. *)
Definition env_failing (bad : list nat) : Env :=
  mkEnv (fun n => negb (existsb (Nat.eqb n) bad)) (fun _ => "boom"%string)
    false pages (fun ts => map (fun _ => [1]) ts) (fun n _ => [n]).

(** A PDF whose only text is too short to be a chunk. *)
Definition env_blank : Env :=
  mkEnv (fun _ => true) (fun _ => "boom"%string) false [mkChunk "tiny" 1]
    (fun ts => map (fun _ => [1]) ts) (fun n _ => [n]).

Definition two_chunks : list DocChunk :=
  [mkChunk "first chunk text" 1; mkChunk "second chunk text" 1].

End Scenarios.

(* ================================================================== *)
(** * Properties *)

Import JsString TextSplitter Chunks Registry Queue Controller Worker Scenarios.

(** ** Vocabulary of the statements *)

(** The upload target offered when no short-circuit applies. *)
Definition upload_target (now : nat) (fileName fileHash : string) : UploadUrlResponse :=
  UTarget (mkUrl (object_key fileHash now fileName) 3600)
    (object_key fileHash now fileName) fileHash 3600.

Definition is_upsert (c : Call) : bool :=
  match c with CUpsert _ => true | _ => false end.

Definition is_completed_update (c : Call) : bool :=
  match c with CUpdateStatus _ Completed _ _ => true | _ => false end.

(** Positions [i] of the chunk list whose [embeddings[i]] is a vector. *)
Definition nonnull_indices (cs : list DocChunk) (es : list (option vector)) : list nat :=
  filter (fun i => match nth_error es i with Some (Some _) => true | _ => false end)
    (seq 0 (List.length cs)).

(** The initial chunks of the pages (the 600/100 splitter never throws). *)
Definition chunks_of (pages : list DocChunk) : list DocChunk :=
  match splitDocuments 600 100 pages with Some cs => cs | None => [] end.

(** What the claim says the validate-and-split step makes of one initial
    chunk: nothing when its trimmed text has fewer than 10 characters, the
    pieces of the 1500/50 split of that text when it has more than 1500,
    and the trimmed chunk otherwise. *)
Definition spec_validate_one (chunk : DocChunk) : list DocChunk :=
  let content := trim (pageContent chunk) in
  if String.length content <? 10 then []
  else if 1500 <? String.length content then
    map (fun t => mkChunk t (pageNumber chunk)) (splitText 1500 50 content)
  else [mkChunk content (pageNumber chunk)].

(** [m] relates, by [R], every world to the world it ends in. *)
Definition stable (R : World -> World -> Prop) {A} (m : M A) : Prop :=
  forall w, R w (snd (m w)).

Definition same_hashes (w w' : World) : Prop :=
  map content_hash (db w') = map content_hash (db w).

Definition same_temp (w w' : World) : Prop :=
  temp_exists w' = temp_exists w /\ tempPath w' = tempPath w.

(** The log grows by calls that are neither upserts nor completed updates. *)
Definition quiet (w w' : World) : Prop :=
  exists delta, calls w' = calls w ++ delta /\
    filter is_upsert delta = [] /\ filter is_completed_update delta = [].

(** The upserts and the completed-status updates of the log, in order. *)
Definition writes (w : World) : list Call * list Call :=
  (filter is_upsert (calls w), filter is_completed_update (calls w)).

(** Whenever [m] returns normally, it returns [v]. *)
Definition yields {A} (v : A) (m : M A) : Prop :=
  forall w a w', m w = (Ok a, w') -> a = v.

(** At most one row per job id. *)
Definition job_ids_unique (t : table) : Prop := NoDup (map job_id t).

Definition is_query (c : Call) : bool :=
  match c with CEmbedQuery _ => true | _ => false end.

(** Reading a log that starts at position [n]: for each [embedQuery] call,
    its vector when the call succeeded and [null] when it failed. *)
Fixpoint query_results (env : Env) (l : list Call) (n : nat) : list (option vector) :=
  match l with
  | [] => []
  | CEmbedQuery t :: l' =>
      (if env_ok env n then Some (env_query env n t) else None) :: query_results env l' (S n)
  | _ :: l' => query_results env l' (S n)
  end.

Definition same_job_ids (w w' : World) : Prop := map job_id (db w') = map job_id (db w).

Definition same_db (w w' : World) : Prop := db w' = db w.

(** The rows of the hashes other than [h]. *)
Definition other_rows (h : string) (t : table) : table :=
  filter (fun r => negb (String.eqb (content_hash r) h)) t.

(** The rows of every hash other than [h] are as they were. *)
Definition others_same (h : string) (w w' : World) : Prop :=
  other_rows h (db w') = other_rows h (db w).

(** A list of characters that does not start with white space. *)
Definition nows_head (l : list ascii) : Prop :=
  match l with [] => True | c :: _ => is_ws c = false end.

(** A non-empty text with no surrounding white space. *)
Definition tidy (s : string) : Prop := trim s = s /\ s <> EmptyString.

(** Every [fs.unlink] call in the log failed. *)
Definition unlinks_failed (env : Env) (w : World) : Prop :=
  forall i, nth_error (calls w) i = Some CUnlink -> env_ok env i = false.

(** The world after a successful download and write of the temporary file. *)
Definition after_fetch (d : PdfJobData) (t : table) : World :=
  mkWorld [CUpdateProgress 10; CDownload (objectKey d); CWriteTemp] true t true [].

(** The operations that touch the registry, on the system state: intake
    requests, and a worker run (its log starts empty). A worker run is given
    any payload, and the queue's record of job states is left as it is: the
    statements on [step] are about the registry. *)
Inductive Op :=
| OpUploadUrl (now : nat) (fileName fileHash : string)
| OpTrigger (objectKey fileName fileHash : string) (userId : option string)
| OpRetry (jobId : nat)
| OpProcess (env : Env) (d : PdfJobData).

Definition step (s : State) (o : Op) : State :=
  match o with
  | OpUploadUrl now fn fh => snd (getUploadUrl s now fn fh)
  | OpTrigger k fn fh u => snd (triggerProcessing s k fn fh u)
  | OpRetry j => snd (retryJob s j)
  | OpProcess env d => mkState (queue s) (db (snd (process env d (init_world (registry s)))))
  end.

(* ------------------------------------------------------------------ *)
(** ** Intake *)

(** C8: [getUploadUrl] leaves queue and registry unchanged; a completed row
    for the hash gives a duplicate answer carrying that row with
    [skipUpload]; a processing row gives a processing answer with its job
    id and [skipUpload]; otherwise the answer is the object key
    [pdfs/<hash>-<now>-<fileName>] with a URL signed for that key and for
    3600 seconds, and [expiresIn = 3600]. *)
Theorem getUploadUrl_spec (s : State) (now : nat) (fileName fileHash : string) :
  snd (getUploadUrl s now fileName fileHash) = s /\
  match findByHash (registry s) fileHash with
  | Some e =>
      match status e with
      | Completed =>
          exists msg, fst (getUploadUrl s now fileName fileHash)
                      = Ok (UDuplicate msg true e)
      | Processing =>
          exists msg, fst (getUploadUrl s now fileName fileHash)
                      = Ok (UProcessing msg (job_id e) true)
      | Failed =>
          fst (getUploadUrl s now fileName fileHash)
          = Ok (upload_target now fileName fileHash)
      end
  | None =>
      fst (getUploadUrl s now fileName fileHash) = Ok (upload_target now fileName fileHash)
  end.
Proof.
  unfold getUploadUrl.
  destruct (findByHash (registry s) fileHash) as [e|]; [|split; reflexivity].
  destruct (status e); split; try reflexivity; eexists; reflexivity.
Qed.

(** C9 (failing input): a file whose earlier run failed is uploaded again.
    [triggerProcessing] enqueues job 2, then the insert of its row is
    rejected on the unique [content_hash]: the request fails, job 2 stays
    queued, and no row refers to job 2. *)
Theorem triggerProcessing_after_failed_run :
  triggerProcessing after_failure "pdfs/h-2-a.pdf" "a.pdf" "h" None
  = (Err (Db (UniqueViolation "content_hash")),
     mkState (mkQueue [mkJob 1 JFailed job1;
                       mkJob 2 Waiting (mkData "pdfs/h-2-a.pdf" "a.pdf" "h" None)] 3)
             [row_failed]).
Proof. vm_compute. reflexivity. Qed.

(** C2 (failing input): retrying the failed job 1 enqueues job 2, then the
    insert of a row for job 2 is rejected on the unique [content_hash]: the
    request fails and no row is correlated to job 2. *)
Theorem retryJob_failed_job_insert_rejected :
  retryJob after_failure 1
  = (Err (Db (UniqueViolation "content_hash")),
     mkState (mkQueue [mkJob 1 JFailed job1; mkJob 2 Waiting job1] 3) [row_failed]).
Proof. vm_compute. reflexivity. Qed.

(* ------------------------------------------------------------------ *)
(** ** Worker: concrete runs *)

(** C4 (failing input): both embeddings succeed but the progress update
    after the first one throws; the fallback returns three entries for two
    chunks, the second chunk's vector sits at position 2 and a [null] at
    position 1. *)
Theorem embedChunksIndividually_progress_failure :
  fst (embedChunksIndividually (env_failing [1]) two_chunks (init_world []))
  = Ok [Some [0]; None; Some [2]].
Proof. vm_compute. reflexivity. Qed.

(** C7 (counterexample): when both [fs.unlink] calls fail (the one after
    chunking and the one in the [catch] block), the job fails and the
    temporary file still exists. *)
Theorem process_temp_file_left :
  temp_exists (snd (process (env_failing [5; 6]) job1 (init_world [row_failed]))) = true.
Proof. vm_compute. reflexivity. Qed.

(* ------------------------------------------------------------------ *)
(** ** Stability of world relations through the worker's computations *)

Section Stable.
Variable R : World -> World -> Prop.
Hypothesis R_refl : forall w, R w w.
Hypothesis R_trans : forall a b c, R a b -> R b c -> R a c.

Lemma stable_ret {A} (a : A) : stable R (ret a).
Proof. intro w; apply R_refl. Qed.

Lemma stable_throw {A} (e : string) : stable R (@throw A e).
Proof. intro w; apply R_refl. Qed.

Lemma stable_bind {A B} (m : M A) (k : A -> M B) :
  stable R m -> (forall a, stable R (k a)) -> stable R (bind m k).
Proof using R_refl R_trans.
  intros Hm Hk w. specialize (Hm w). unfold bind.
  destruct (m w) as [[a|e] w'] eqn:E; simpl in *; [|exact Hm].
  eapply R_trans; [exact Hm|apply Hk].
Qed.

Lemma stable_try_catch {A} (m : M A) (h : string -> M A) :
  stable R m -> (forall e, stable R (h e)) -> stable R (try_catch m h).
Proof using R_refl R_trans.
  intros Hm Hh w. specialize (Hm w). unfold try_catch.
  destruct (m w) as [[a|e] w'] eqn:E; simpl in *; [exact Hm|].
  eapply R_trans; [exact Hm|apply Hh].
Qed.

Lemma stable_embed_loop env (chunks : list DocChunk) :
  (forall text, stable R (embedQuery env text)) ->
  (forall o, stable R (push_emb o)) ->
  (forall p, stable R (updateProgress env p)) ->
  forall i n, stable R (embed_loop env chunks i n).
Proof using R_refl R_trans.
  intros Hq Hp Hu. induction chunks as [|c rest IH]; intros i n; simpl.
  - apply stable_ret.
  - apply stable_bind; [|intros; apply IH].
    apply stable_try_catch; [|intros; apply Hp].
    apply stable_bind; [apply Hq|intros].
    apply stable_bind; [apply Hp|intros; apply Hu].
Qed.

End Stable.

Ltac stable_step refl trans :=
  first
  [ apply (stable_bind _ refl trans); [|intro]
  | apply (stable_try_catch _ refl trans); [|intro]
  | apply (stable_ret _ refl)
  | apply (stable_throw _ refl)
  | match goal with
    | |- stable _ (match ?x with _ => _ end) => destruct x
    | |- stable _ (if ?b then _ else _) => destruct b
    | |- stable _ (let _ := _ in _) => cbv zeta
    end ].

Lemma length_updateStatus t h st cc em :
  map content_hash (updateStatus t h st cc em) = map content_hash t.
Proof.
  induction t as [|r t IH]; simpl; [reflexivity|].
  destruct (String.eqb (content_hash r) h); simpl; f_equal; exact IH.
Qed.

Lemma same_hashes_refl w : same_hashes w w.
Proof. reflexivity. Qed.

Lemma same_hashes_trans a b c : same_hashes a b -> same_hashes b c -> same_hashes a c.
Proof. unfold same_hashes; congruence. Qed.

Lemma same_hashes_external env c : stable same_hashes (external env c).
Proof.
  intro w. unfold external, same_hashes.
  destruct (env_ok env (List.length (calls w))); simpl;
    destruct c; simpl; try reflexivity;
    try (destruct (env_write_partial env); reflexivity).
  apply length_updateStatus.
Qed.

Ltac stable_hashes :=
  repeat (first
    [ stable_step same_hashes_refl same_hashes_trans
    | apply same_hashes_external
    | intro w; reflexivity
    | progress unfold updateProgress, downloadFile, writeFile, unlink, load,
        embedDocuments, embedQuery, upsert, svc_updateStatus, deleteFile,
        embedChunksIndividually, get_tempPath, get_embs ]).

Lemma process_same_hashes env d : stable same_hashes (process env d).
Proof.
  unfold process, process_body, process_failed, fetch_stage, load_stage,
    embed_stage, store_stage, finalize_stage.
  stable_hashes.
  apply stable_embed_loop; try apply same_hashes_refl; try apply same_hashes_trans;
    intros; stable_hashes.
Qed.

(* ------------------------------------------------------------------ *)
(** ** Uniqueness of the content hash *)

Lemma NoDup_snoc {A} (l : list A) (x : A) :
  NoDup l -> ~ In x l -> NoDup (l ++ [x]).
Proof.
  induction l as [|a l IH]; simpl; intros Hd Hn.
  - constructor; [intros []|constructor].
  - inversion Hd as [|? ? Ha Hl]; subst. constructor.
    + rewrite in_app_iff. intros [H|[H|[]]]; [contradiction|].
      subst; apply Hn; left; reflexivity.
    + apply IH; [exact Hl|]. intro H; apply Hn; right; exact H.
Qed.

Lemma create_unique t dd t' :
  hashes_unique t -> create t dd = Ok t' -> hashes_unique t'.
Proof.
  unfold create, hashes_unique.
  destruct (existsb (fun r => String.eqb (content_hash r) (n_content_hash dd)) t) eqn:E1;
    [discriminate|].
  destruct (existsb (fun r => Nat.eqb (job_id r) (n_job_id dd)) t); [discriminate|].
  intros Hu H. injection H as <-. rewrite map_app. simpl.
  apply NoDup_snoc; [exact Hu|].
  intro Hin. apply in_map_iff in Hin as [r [Hr Hin]].
  assert (existsb (fun r => String.eqb (content_hash r) (n_content_hash dd)) t = true)
    as E2.
  { apply existsb_exists. exists r. split; [exact Hin|]. apply String.eqb_eq; exact Hr. }
  congruence.
Qed.

Lemma create_existing_hash t dd :
  findByHash t (n_content_hash dd) <> None ->
  create t dd = Err (UniqueViolation "content_hash").
Proof.
  unfold findByHash, create. intro H.
  destruct (find (fun r => String.eqb (content_hash r) (n_content_hash dd)) t) as [r|] eqn:F;
    [|congruence].
  apply find_some in F as [Hin Hr].
  replace (existsb _ t) with true; [reflexivity|].
  symmetry; apply existsb_exists; exists r; split; assumption.
Qed.

Lemma trigger_unique s k fn fh u :
  hashes_unique (registry s) -> hashes_unique (registry (snd (triggerProcessing s k fn fh u))).
Proof.
  intro Hu. unfold triggerProcessing.
  destruct (findByHash (registry s) fh) as [e|] eqn:F.
  - destruct (status_eqb (status e) Processing); [exact Hu|].
    destruct (add (queue s) _) as [job q'].
    destruct (create _ _) as [t'|err] eqn:E; simpl; [|exact Hu].
    exact (create_unique _ _ _ Hu E).
  - destruct (add (queue s) _) as [job q'].
    destruct (create _ _) as [t'|err] eqn:E; simpl; [|exact Hu].
    exact (create_unique _ _ _ Hu E).
Qed.

Lemma trigger_existing s k fn fh u :
  findByHash (registry s) fh <> None ->
  registry (snd (triggerProcessing s k fn fh u)) = registry s.
Proof.
  intro H. unfold triggerProcessing.
  destruct (findByHash (registry s) fh) as [e|] eqn:F; [|congruence].
  destruct (status_eqb (status e) Processing); [reflexivity|].
  destruct (add (queue s) _) as [job q'].
  rewrite (create_existing_hash (registry s)
             (mkNew fh fn u (jid job) k Processing)); [reflexivity|].
  simpl; congruence.
Qed.

Lemma retry_unique s j :
  hashes_unique (registry s) -> hashes_unique (registry (snd (retryJob s j))).
Proof.
  intro Hu. unfold retryJob.
  destruct (getJob (queue s) j) as [job|]; [|exact Hu].
  destruct (negb (terminal (jstate job))); [exact Hu|].
  destruct (add (queue s) _) as [newJob q'].
  destruct (create _ _) as [t'|err] eqn:E; simpl; [|exact Hu].
  exact (create_unique _ _ _ Hu E).
Qed.

Lemma step_unique s o : hashes_unique (registry s) -> hashes_unique (registry (step s o)).
Proof.
  intro Hu. destruct o as [now fn fh|k fn fh u|j|env d]; simpl.
  - unfold getUploadUrl.
    destruct (findByHash (registry s) fh) as [e|]; [destruct (status e)|]; exact Hu.
  - apply trigger_unique; exact Hu.
  - apply retry_unique; exact Hu.
  - unfold hashes_unique.
    rewrite (process_same_hashes env d (init_world (registry s))). exact Hu.
Qed.

(** C1: from a registry with at most one row per content hash, every
    sequence of intake requests ([getUploadUrl], [triggerProcessing],
    [retryJob]) and worker runs (with their completed and failed status
    updates) keeps at most one row per content hash; and a
    [triggerProcessing] for a hash that already has a row leaves the
    registry as it was (the existing row stays the only one). *)
Theorem content_hash_unique (s : State) (ops : list Op) :
  hashes_unique (registry s) ->
  hashes_unique (registry (fold_left step ops s)) /\
  (forall k fn fh u, findByHash (registry s) fh <> None ->
     registry (snd (triggerProcessing s k fn fh u)) = registry s).
Proof.
  intro Hu. split.
  - revert s Hu. induction ops as [|o ops IH]; intros s Hu; simpl; [exact Hu|].
    apply IH, step_unique, Hu.
  - intros; apply trigger_existing; assumption.
Qed.

(* ------------------------------------------------------------------ *)
(** ** Empty documents *)

(** C6: a run that gets through download, temporary file, loading,
    chunking and the temporary file's deletion (the first six external
    calls), and whose chunks leave no valid chunk, throws
    [No valid chunks found in PDF] without any embedding call; its
    [catch] block (with a working registry) marks the hash's rows failed
    with that message and chunk count 0, and the error is rethrown. *)
Theorem empty_document_fails (env : Env) (d : PdfJobData) (t : table) :
  (forall n, n < 6 -> env_ok env n = true) ->
  validateChunks (chunks_of (env_pages env)) = [] ->
  env_ok env 6 = true ->
  process env d (init_world t) =
  (Err no_valid_chunks,
   mkWorld [CUpdateProgress 10; CDownload (objectKey d); CWriteTemp; CUpdateProgress 30;
            CLoad; CUnlink; CUpdateStatus (fileHash d) Failed (Some 0) (Some no_valid_chunks)]
           false (updateStatus t (fileHash d) Failed (Some 0) (Some no_valid_chunks))
           false []).
Proof.
  intros Hok Hv H6.
  assert (H0 : env_ok env 0 = true) by (apply Hok; lia).
  assert (H1 : env_ok env 1 = true) by (apply Hok; lia).
  assert (H2 : env_ok env 2 = true) by (apply Hok; lia).
  assert (H3 : env_ok env 3 = true) by (apply Hok; lia).
  assert (H4 : env_ok env 4 = true) by (apply Hok; lia).
  assert (H5 : env_ok env 5 = true) by (apply Hok; lia).
  unfold chunks_of in Hv. simpl in Hv.
  unfold process, process_body, fetch_stage, load_stage, process_failed,
    updateProgress, downloadFile, writeFile, load, unlink, svc_updateStatus,
    set_tempPath, get_tempPath, bind, try_catch, external.
  simpl. rewrite H0. simpl. rewrite H1. simpl. rewrite H2. simpl.
  rewrite H3. simpl. rewrite H4. simpl. rewrite H5. simpl.
  rewrite Hv. simpl. rewrite H6. reflexivity.
Qed.

(* ------------------------------------------------------------------ *)
(** ** The failure handler *)

Lemma updateStatus_rows t h st cc em r :
  In r (updateStatus t h st cc em) -> content_hash r = h ->
  status r = st /\ (forall v, cc = Some v -> chunk_count r = Some v) /\
  (forall m, em = Some m -> error_message r = Some m).
Proof.
  unfold updateStatus. intros Hin Hh. apply in_map_iff in Hin as [r0 [Hr Hin]].
  destruct (String.eqb (content_hash r0) h) eqn:E.
  - subst r; simpl. split; [reflexivity|].
    split; intros ? ->; reflexivity.
  - subst r. apply String.eqb_neq in E. contradiction.
Qed.

Lemma nth_error_snoc {A} (l : list A) (x : A) : nth_error (l ++ [x]) (List.length l) = Some x.
Proof. rewrite nth_error_app2 by lia. rewrite Nat.sub_diag. reflexivity. Qed.

(** C10: whenever [process] throws, its [catch] block has issued the
    registry update [(hash, failed, chunkCount 0, message)]; when that
    update goes through, the error rethrown is the original one and every
    row of the hash is [failed] with [chunk_count = 0] (a number, neither
    [null] nor the previous value) and the message. *)
Theorem failure_sets_chunk_count_zero (env : Env) (d : PdfJobData) (w : World)
    (e : string) (w1 : World) :
  process env d w = (Err e, w1) ->
  exists msg n,
    nth_error (calls w1) n = Some (CUpdateStatus (fileHash d) Failed (Some 0) (Some msg)) /\
    (env_ok env n = true ->
     e = msg /\
     forall r, In r (db w1) -> content_hash r = fileHash d ->
       status r = Failed /\ chunk_count r = Some 0 /\ error_message r = Some msg).
Proof.
  unfold process, try_catch.
  destruct (process_body env d w) as [[a|msg] w2]; [discriminate|].
  unfold process_failed, bind, get_tempPath.
  set (w3 := snd ((if tempPath w2 then try_catch (unlink env) (fun _ => ret tt)
                   else ret tt) w2)).
  assert (Hw3 : (if tempPath w2 then try_catch (unlink env) (fun _ => ret tt) else ret tt) w2
                = (Ok tt, w3)).
  { subst w3. destruct (tempPath w2); [|reflexivity].
    unfold try_catch, unlink, bind, external.
    destruct (env_ok env (List.length (calls w2))); reflexivity. }
  rewrite Hw3. unfold svc_updateStatus, external, bind. intro H.
  exists msg, (List.length (calls w3)).
  destruct (env_ok env (List.length (calls w3))) eqn:Eok; simpl in H;
    injection H as <- <-; simpl; (split; [apply nth_error_snoc|]).
  - intros _. split; [reflexivity|]. intros r Hin Hh.
    destruct (updateStatus_rows _ _ _ _ _ r Hin Hh) as [Hs [Hc Hm]].
    split; [exact Hs|]. split; [apply Hc|apply Hm]; reflexivity.
  - intro; discriminate.
Qed.

(* ------------------------------------------------------------------ *)
(** ** The temporary file *)

Lemma unlinks_failed_no_unlink env w :
  ~ In CUnlink (calls w) -> unlinks_failed env w.
Proof.
  intros Hn i Hi. exfalso. apply Hn. eapply nth_error_In; exact Hi.
Qed.

Lemma unlinks_failed_log env w c :
  unlinks_failed env w -> (c = CUnlink -> env_ok env (List.length (calls w)) = false) ->
  forall w', calls w' = calls w ++ [c] -> unlinks_failed env w'.
Proof.
  intros Hw Hc w' Hcalls i Hi. rewrite Hcalls in Hi.
  destruct (Nat.lt_ge_cases i (List.length (calls w))) as [Hlt|Hge].
  - rewrite nth_error_app1 in Hi by exact Hlt. apply Hw; exact Hi.
  - rewrite nth_error_app2 in Hi by exact Hge.
    destruct (i - List.length (calls w)) as [|k] eqn:Ek; simpl in Hi.
    + injection Hi as Hi. replace i with (List.length (calls w)) by lia. apply Hc; auto.
    + destruct k; discriminate.
Qed.

Lemma same_temp_refl w : same_temp w w.
Proof. split; reflexivity. Qed.

Lemma same_temp_trans a b c : same_temp a b -> same_temp b c -> same_temp a c.
Proof. unfold same_temp; intros [H1 H2] [H3 H4]; split; congruence. Qed.

Lemma same_temp_external env c :
  c <> CWriteTemp -> c <> CUnlink -> stable same_temp (external env c).
Proof.
  intros H1 H2 w. unfold external, same_temp.
  destruct (env_ok env (List.length (calls w))); simpl;
    destruct c; simpl; try (split; reflexivity); congruence.
Qed.

Ltac stable_temp :=
  repeat (first
    [ stable_step same_temp_refl same_temp_trans
    | apply same_temp_external; discriminate
    | intro w; split; reflexivity
    | progress unfold updateProgress, embedDocuments, embedQuery, upsert,
        svc_updateStatus, deleteFile, embedChunksIndividually, get_embs,
        set_embs, push_emb ]).

Lemma embed_loop_same_temp env chunks i n : stable same_temp (embed_loop env chunks i n).
Proof.
  apply stable_embed_loop; try apply same_temp_refl; try apply same_temp_trans;
    intros; stable_temp.
Qed.

Lemma embed_stage_same_temp env cs : stable same_temp (embed_stage env cs).
Proof. unfold embed_stage. stable_temp. apply embed_loop_same_temp. Qed.

Lemma store_stage_same_temp env d cs es : stable same_temp (store_stage env d cs es).
Proof. unfold store_stage. stable_temp. Qed.

Lemma finalize_stage_same_temp env d pts : stable same_temp (finalize_stage env d pts).
Proof. unfold finalize_stage. stable_temp. Qed.

(** The [catch] block leaves the file only after a failed unlink of it. *)
Lemma process_failed_temp env d msg w :
  (temp_exists w = true -> tempPath w = true /\ unlinks_failed env w) ->
  let w' := snd (process_failed env d msg w) in
  temp_exists w' = true -> In CUnlink (calls w') /\ unlinks_failed env w'.
Proof.
  intros Hinv. unfold process_failed, bind, get_tempPath.
  destruct (tempPath w) eqn:Tp.
  - unfold try_catch, unlink, bind, external.
    destruct (env_ok env (List.length (calls w))) eqn:En; simpl.
    + unfold svc_updateStatus, external, bind; simpl.
      destruct (env_ok env (List.length (calls w ++ [CUnlink]))); simpl;
        intro H; discriminate.
    + unfold svc_updateStatus, external, bind; simpl.
      destruct (temp_exists w) eqn:Te.
      * assert (Hu : unlinks_failed env (log CUnlink w)).
        { apply (unlinks_failed_log env w CUnlink);
            [apply Hinv; reflexivity | intros _; exact En | reflexivity]. }
        destruct (env_ok env (List.length (calls w ++ [CUnlink]))); simpl; intros _;
          (split; [apply in_or_app; left; apply in_or_app; right; left; reflexivity|]);
          (apply (unlinks_failed_log env (log CUnlink w)
                   (CUpdateStatus (fileHash d) Failed (Some 0) (Some msg)));
             [exact Hu | intro Hc; discriminate Hc | reflexivity]).
      * destruct (env_ok env (List.length (calls w ++ [CUnlink]))); simpl; intro Ht;
          rewrite Te in Ht; discriminate.
  - unfold svc_updateStatus, external, bind; simpl.
    destruct (env_ok env (List.length (calls w))); simpl; intro Ht;
      destruct (Hinv Ht) as [Hc _]; discriminate.
Qed.

Lemma run_bind {A B} (m : M A) (k : A -> M B) (w : World) :
  bind m k w = match m w with
               | (Ok a, w') => k a w'
               | (Err e, w') => (Err e, w')
               end.
Proof. reflexivity. Qed.

Lemma run_try_catch {A} (m : M A) (h : string -> M A) (w : World) :
  try_catch m h w = match m w with
                    | (Ok a, w') => (Ok a, w')
                    | (Err e, w') => h e w'
                    end.
Proof. reflexivity. Qed.

(** Split on the outcome of every external call left in the goal. *)
Ltac case_calls :=
  repeat (simpl; match goal with
    | |- context [env_ok ?env ?n] => destruct (env_ok env n) eqn:?
    | |- context [env_write_partial ?env] => destruct (env_write_partial env) eqn:?
    end).

Ltac solve_unlinks_at i Hi :=
  simpl in Hi;
  lazymatch type of Hi with
  | nth_error [] _ = _ => destruct i; discriminate
  | _ => destruct i as [|i];
         [simpl in Hi; first [discriminate | assumption] | solve_unlinks_at i Hi]
  end.

Ltac solve_unlinks :=
  let i := fresh "i" in
  let Hi := fresh "Hi" in
  intros i Hi; solve_unlinks_at i Hi.

Lemma fetch_stage_init env d t :
  let '(r, w) := fetch_stage env d (init_world t) in
  ~ In CUnlink (calls w) /\ (temp_exists w = true -> tempPath w = true) /\
  (forall u, r = Ok u -> w = after_fetch d t).
Proof.
  unfold fetch_stage, updateProgress, downloadFile, writeFile, set_tempPath,
    bind, try_catch, external, throw, ret.
  case_calls; simpl.
  all: split; [|split]; intuition discriminate.
Qed.

Lemma load_stage_after_fetch env d t :
  let '(r, w) := load_stage env (after_fetch d t) in
  (temp_exists w = true -> tempPath w = true /\ unlinks_failed env w) /\
  (forall cs, r = Ok cs -> temp_exists w = false /\ tempPath w = false).
Proof.
  unfold load_stage, updateProgress, load, unlink, set_tempPath,
    bind, try_catch, external, throw, ret.
  case_calls; unfold log, after_fetch; simpl.
  all: split; [intro Ht; first [discriminate | split; [reflexivity|solve_unlinks]]|].
  all: intros cs Hcs; try discriminate; split; reflexivity.
Qed.

(** C7 (amended): when a run of [process] from a fresh job ends with the
    temporary file still on disk, an [fs.unlink] of it was issued and every
    [fs.unlink] issued failed (the catch block logs and swallows that
    failure); on every other path, successful or not, the file is gone. *)
Theorem temp_file_removed_unless_unlink_fails (env : Env) (d : PdfJobData) (t : table) :
  let w := snd (process env d (init_world t)) in
  temp_exists w = true -> In CUnlink (calls w) /\ unlinks_failed env w.
Proof.
  cbv zeta.
  unfold process; rewrite run_try_catch; unfold process_body; rewrite run_bind.
  generalize (fetch_stage_init env d t).
  destruct (fetch_stage env d (init_world t)) as [[u|e] w1]; intros [Hn [Ht Hok]].
  - rewrite (Hok u eq_refl); cbv beta iota; rewrite run_bind.
    generalize (load_stage_after_fetch env d t).
    destruct (load_stage env (after_fetch d t)) as [[cs|e] w2]; intros [Hinv Hok2];
      cbv beta iota.
    + destruct (Hok2 cs eq_refl) as [Ht2 Hp2].
      match goal with
      | |- context [bind ?X ?Y w2] =>
          assert (Hs : stable same_temp (bind X Y))
            by repeat (first [ apply embed_stage_same_temp
                             | apply store_stage_same_temp
                             | apply finalize_stage_same_temp
                             | stable_step same_temp_refl same_temp_trans ]);
          destruct (bind X Y w2) as [[a|e] w3] eqn:E;
          generalize (Hs w2); rewrite E; simpl; intros [T3 P3]
      end.
      * intro H; simpl in H; congruence.
      * apply (process_failed_temp env d e w3). intro H; congruence.
    + apply (process_failed_temp env d e w2). exact Hinv.
  - apply (process_failed_temp env d e w1).
    intro H; split; [exact (Ht H)|]. apply unlinks_failed_no_unlink; exact Hn.
Qed.

(* ------------------------------------------------------------------ *)
(** ** The persist stage *)

Lemma run_external env c w :
  external env c w =
  if env_ok env (List.length (calls w))
  then (Ok (List.length (calls w)), on_success c (log c w))
  else (Err (env_msg env (List.length (calls w))), on_failure env c (log c w)).
Proof. reflexivity. Qed.

Lemma run_ret {A} (a : A) w : ret a w = (Ok a, w).
Proof. reflexivity. Qed.

Lemma calls_on_success c w : calls (on_success c w) = calls w.
Proof. destruct c; reflexivity. Qed.

Lemma calls_on_failure env c w : calls (on_failure env c w) = calls w.
Proof. destruct c; try reflexivity; simpl; destruct (env_write_partial env); reflexivity. Qed.

Lemma quiet_refl w : quiet w w.
Proof. exists []; rewrite app_nil_r; auto. Qed.

Lemma quiet_trans a b c : quiet a b -> quiet b c -> quiet a c.
Proof.
  intros [d1 [E1 [U1 C1]]] [d2 [E2 [U2 C2]]].
  exists (d1 ++ d2); rewrite E2, E1, app_assoc, !filter_app, U1, U2, C1, C2; auto.
Qed.

Lemma quiet_external env c :
  is_upsert c = false -> is_completed_update c = false -> stable quiet (external env c).
Proof.
  intros U C w; rewrite run_external.
  destruct (env_ok env (List.length (calls w))); exists [c]; simpl;
    rewrite ?calls_on_success, ?calls_on_failure; simpl; rewrite U, C; auto.
Qed.

Lemma quiet_writes w w' : quiet w w' -> writes w' = writes w.
Proof.
  intros [dl [E [U C]]]; unfold writes; rewrite E, !filter_app, U, C, !app_nil_r; reflexivity.
Qed.

Ltac stable_quiet :=
  repeat (first
    [ stable_step quiet_refl quiet_trans
    | apply quiet_external; reflexivity
    | solve [intro w; exists []; simpl; rewrite app_nil_r; auto]
    | progress unfold updateProgress, downloadFile, writeFile, unlink, load,
        embedDocuments, embedQuery, svc_updateStatus, deleteFile,
        embedChunksIndividually, set_tempPath, get_tempPath, get_embs,
        set_embs, push_emb ]).

Lemma fetch_stage_quiet env d : stable quiet (fetch_stage env d).
Proof. unfold fetch_stage. stable_quiet. Qed.

Lemma load_stage_quiet env : stable quiet (load_stage env).
Proof. unfold load_stage. stable_quiet. Qed.

Lemma embed_stage_quiet env cs : stable quiet (embed_stage env cs).
Proof.
  unfold embed_stage. stable_quiet.
  apply stable_embed_loop; try apply quiet_refl; try apply quiet_trans; intros; stable_quiet.
Qed.

Lemma process_failed_quiet env d msg : stable quiet (process_failed env d msg).
Proof. unfold process_failed. stable_quiet. Qed.

Lemma yields_ret {A} (v : A) : yields v (ret v).
Proof. intros w a w' H; injection H as <- _; reflexivity. Qed.

Lemma yields_throw {A} (v : A) e : yields v (throw e).
Proof. intros w a w' H; discriminate H. Qed.

Lemma yields_bind {A B} (m : M A) (k : A -> M B) (u : A) (v : B) :
  yields u m -> yields v (k u) -> yields v (bind m k).
Proof.
  intros Hm Hk w b w'; unfold bind.
  destruct (m w) as [[a|e] w1] eqn:E; [|discriminate].
  rewrite (Hm w a w1 E); apply Hk.
Qed.

Lemma yields_bind_tail {A B} (m : M A) (k : A -> M B) (v : B) :
  (forall a, yields v (k a)) -> yields v (bind m k).
Proof.
  intros Hk w b w'; unfold bind.
  destruct (m w) as [[a|e] w1]; [apply Hk|discriminate].
Qed.

Lemma load_stage_result env : yields (chunks_of (env_pages env)) (load_stage env).
Proof.
  unfold load_stage, load, chunks_of.
  apply yields_bind_tail; intros _.
  apply (yields_bind _ _ (env_pages env)); [apply yields_bind_tail; intros; apply yields_ret|].
  destruct (splitDocuments 600 100 (env_pages env)) as [l|].
  - apply (yields_bind _ _ l); [apply yields_ret|].
    do 2 (apply yields_bind_tail; intros _). apply yields_ret.
  - apply (yields_bind _ _ []); [apply yields_throw|].
    do 2 (apply yields_bind_tail; intros _). apply yields_ret.
Qed.

Lemma run_throw {A} (e : string) w : @throw A e w = (Err e, w).
Proof. reflexivity. Qed.

Ltac writes_simpl :=
  unfold writes, log; rewrite ?calls_on_success, ?calls_on_failure; simpl;
  rewrite ?filter_app; simpl; rewrite ?app_nil_r.

Lemma store_stage_writes env d vc es w :
  let pts := validPoints (fileHash d) (fileName d) (objectKey d) vc es in
  let '(r, w') := store_stage env d vc es w in
  snd (writes w') = snd (writes w) /\
  (forall p, r = Ok p -> p = pts /\ writes w' = (fst (writes w) ++ [CUpsert pts], snd (writes w))).
Proof.
  cbv zeta. unfold store_stage, updateProgress, upsert.
  rewrite !run_bind, run_external.
  destruct (env_ok env (List.length (calls w))); cbv beta iota zeta.
  - rewrite run_ret; cbv beta iota. rewrite !run_bind, run_external.
    match goal with |- context [env_ok env ?n] => destruct (env_ok env n) end;
      cbv beta iota.
    + rewrite !run_ret; cbv beta iota. writes_simpl.
      split; [reflexivity|]. intros p Hp; injection Hp as <-; split; reflexivity.
    + writes_simpl. split; [reflexivity|]. intros p Hp; discriminate Hp.
  - writes_simpl. split; [reflexivity|]. intros p Hp; discriminate Hp.
Qed.

Lemma finalize_stage_writes env d pts w :
  writes (snd (finalize_stage env d pts w)) =
  (fst (writes w),
   snd (writes w) ++ [CUpdateStatus (fileHash d) Completed (Some (List.length pts)) None]).
Proof.
  assert (Hs : stable quiet (updateProgress env 95 ;; deleteFile env (objectKey d) ;;
                             updateProgress env 100)) by stable_quiet.
  unfold finalize_stage. rewrite run_bind. unfold svc_updateStatus.
  rewrite run_bind, run_external.
  destruct (env_ok env (List.length (calls w))); cbv beta iota.
  - rewrite run_ret; cbv beta iota. rewrite (quiet_writes _ _ (Hs _)). writes_simpl.
    reflexivity.
  - writes_simpl. reflexivity.
Qed.

Lemma validPoints_from_indices h f k es vc i :
  map p_chunk_index (drop_nulls (mapi_from (build_point h f k es) i vc)) =
  filter (fun j => match nth_error es j with Some (Some _) => true | _ => false end)
    (seq i (List.length vc)).
Proof.
  revert i; induction vc as [|c vc IH]; intro i; [reflexivity|].
  simpl. unfold build_point at 1.
  destruct (nth_error es i) as [[v|]|]; simpl; rewrite ?IH; reflexivity.
Qed.

Lemma validPoints_from_In h f k es vc i p :
  In p (drop_nulls (mapi_from (build_point h f k es) i vc)) ->
  i <= p_chunk_index p /\
  nth_error es (p_chunk_index p) = Some (Some (p_vector p)) /\
  nth_error vc (p_chunk_index p - i) = Some (mkChunk (p_page_content p) (p_page_number p)).
Proof.
  revert i; induction vc as [|c vc IH]; intros i Hp; [destruct Hp|].
  simpl in Hp. unfold build_point at 1 in Hp.
  destruct (nth_error es i) as [[v|]|] eqn:E; simpl in Hp;
    [destruct Hp as [<-|Hp]|..];
    [ simpl; rewrite E, Nat.sub_diag; destruct c; repeat split; lia
    | .. ];
    destruct (IH (S i) Hp) as [Hle [He Hc]];
    (split; [lia|split; [exact He|]]);
    replace (p_chunk_index p - i) with (S (p_chunk_index p - S i)) by lia; exact Hc.
Qed.

Ltac handler_left Q :=
  left;
  match goal with
  | |- context [process_failed ?env ?d ?e ?w] =>
      let H := fresh "H" in
      pose proof (quiet_writes _ _ (quiet_trans _ _ _ Q (process_failed_quiet env d e w))) as H;
      unfold writes in H; injection H as _ H; rewrite H; reflexivity
  end.

(** C5: a run of [process] either never issues the completed-status update,
    or it issues exactly one upsert and exactly one completed-status update.
    Then the embedding step of this run (run on the world the load step left)
    returned [embeddings] ([es]), and the upserted points are those of
    [validPoints] for the valid chunks and [es]: one per position [i] whose
    [embeddings[i]] is a vector, in order, carrying that vector and that
    chunk's text and page; the chunk count written is the number of these
    points. *)
Theorem persist_stage_points (env : Env) (d : PdfJobData) (t : table) :
  let w := snd (process env d (init_world t)) in
  let vc := validateChunks (chunks_of (env_pages env)) in
  let w2 := snd (load_stage env (snd (fetch_stage env d (init_world t)))) in
  filter is_completed_update (calls w) = [] \/
  exists es pts,
    fst (embed_stage env vc w2) = Ok es /\
    pts = validPoints (fileHash d) (fileName d) (objectKey d) vc es /\
    filter is_upsert (calls w) = [CUpsert pts] /\
    filter is_completed_update (calls w) =
      [CUpdateStatus (fileHash d) Completed (Some (List.length pts)) None] /\
    map p_chunk_index pts = nonnull_indices vc es /\
    (forall p, In p pts ->
       nth_error es (p_chunk_index p) = Some (Some (p_vector p)) /\
       nth_error vc (p_chunk_index p) = Some (mkChunk (p_page_content p) (p_page_number p))).
Proof.
  cbv zeta.
  remember (snd (load_stage env (snd (fetch_stage env d (init_world t))))) as W2 eqn:HW2.
  unfold process; rewrite run_try_catch; unfold process_body; rewrite run_bind.
  pose proof (fetch_stage_quiet env d (init_world t)) as Q1.
  destruct (fetch_stage env d (init_world t)) as [[u|e] w1] eqn:E1; cbn [snd] in Q1;
    cbv beta iota zeta; [|handler_left Q1].
  rewrite run_bind.
  pose proof (load_stage_quiet env w1) as Q2.
  destruct (load_stage env w1) as [[cs|e] w2] eqn:E2; cbn [snd] in Q2;
    pose proof (quiet_trans _ _ _ Q1 Q2) as Q12; cbv beta iota; [|handler_left Q12].
  assert (HW : W2 = w2) by (rewrite HW2; cbn [snd]; try rewrite E2; reflexivity).
  clear HW2; subst W2.
  rewrite (load_stage_result env w1 cs w2 E2).
  rewrite run_bind.
  destruct (Nat.eqb _ 0); [rewrite run_throw; cbv beta iota; handler_left Q12|].
  rewrite run_ret; cbv beta iota. rewrite run_bind.
  set (vc := validateChunks (chunks_of (env_pages env))).
  pose proof (embed_stage_quiet env vc w2) as Q3.
  destruct (embed_stage env vc w2) as [[es|e] w3] eqn:E3; cbn [snd] in Q3;
    pose proof (quiet_trans _ _ _ Q12 Q3) as Q123; cbv beta iota; [|handler_left Q123].
  assert (W3 : writes w3 = ([], [])) by (rewrite (quiet_writes _ _ Q123); reflexivity).
  rewrite run_bind.
  pose proof (store_stage_writes env d vc es w3) as S4; cbv zeta in S4.
  destruct (store_stage env d vc es w3) as [[p|e] w4]; destruct S4 as [S4a S4b];
    cbv beta iota.
  2: { left.
       pose proof (quiet_writes _ _ (process_failed_quiet env d e w4)) as H.
       unfold writes in H, S4a, W3. injection H as _ H. simpl in S4a.
       injection W3 as _ W3. rewrite H, S4a; exact W3. }
  destruct (S4b p eq_refl) as [-> S4w]. rewrite W3 in S4w. simpl in S4w.
  set (pts := validPoints (fileHash d) (fileName d) (objectKey d) vc es) in *.
  rewrite run_bind.
  pose proof (finalize_stage_writes env d pts w4) as F5.
  rewrite S4w in F5; simpl in F5.
  assert (Hfin : forall w', writes w' = writes (snd (finalize_stage env d pts w4)) ->
    filter is_completed_update (calls w') = [] \/
    exists es0 pts0,
      (Ok es : Result string (list (option vector))) = Ok es0 /\
      pts0 = validPoints (fileHash d) (fileName d) (objectKey d) vc es0 /\
      filter is_upsert (calls w') = [CUpsert pts0] /\
      filter is_completed_update (calls w') =
        [CUpdateStatus (fileHash d) Completed (Some (List.length pts0)) None] /\
      map p_chunk_index pts0 = nonnull_indices vc es0 /\
      (forall p, In p pts0 ->
         nth_error es0 (p_chunk_index p) = Some (Some (p_vector p)) /\
         nth_error vc (p_chunk_index p) = Some (mkChunk (p_page_content p) (p_page_number p)))).
  { intros w' Hw. rewrite F5 in Hw. unfold writes in Hw. injection Hw as Hu Hc.
    right. exists es, pts.
    split; [reflexivity|].
    split; [reflexivity|]. split; [exact Hu|]. split; [exact Hc|].
    split; [apply validPoints_from_indices|].
    intros q Hq. destruct (validPoints_from_In _ _ _ _ _ 0 q Hq) as [_ [He Hc']].
    rewrite Nat.sub_0_r in Hc'. split; [exact He|exact Hc']. }
  destruct (finalize_stage env d pts w4) as [[u5|e] w5]; cbv beta iota.
  - rewrite run_ret; cbv beta iota. apply Hfin; reflexivity.
  - apply Hfin. apply (quiet_writes _ _ (process_failed_quiet env d e w5)).
Qed.

(* ------------------------------------------------------------------ *)
(** ** Sizes of the splitter's chunks *)

Lemma str_length_append (s1 s2 : string) :
  String.length (s1 ++ s2) = String.length s1 + String.length s2.
Proof. induction s1; simpl; auto. Qed.

Lemma length_string_of_list_ascii l : String.length (string_of_list_ascii l) = List.length l.
Proof. induction l; simpl; auto. Qed.

Lemma length_list_ascii_of_string s : List.length (list_ascii_of_string s) = String.length s.
Proof. induction s; simpl; auto. Qed.

Lemma length_drop_ws l : List.length (drop_ws l) <= List.length l.
Proof. induction l as [|c l IH]; simpl; [lia|destruct (is_ws c); simpl; lia]. Qed.

Lemma length_trim s : String.length (trim s) <= String.length s.
Proof.
  unfold trim. rewrite length_string_of_list_ascii, length_rev.
  rewrite <- length_list_ascii_of_string.
  pose proof (length_drop_ws (list_ascii_of_string s)).
  pose proof (length_drop_ws (rev (drop_ws (list_ascii_of_string s)))).
  rewrite length_rev in *. lia.
Qed.

Lemma length_concat_empty l :
  String.length (String.concat EmptyString l) = list_sum (map String.length l).
Proof.
  induction l as [|x l IH]; [reflexivity|].
  destruct l as [|y l]; simpl in *; [lia|].
  rewrite str_length_append; simpl in *; rewrite IH; reflexivity.
Qed.

Lemma joinDocs_length cur s :
  joinDocs cur EmptyString = Some s -> String.length s <= list_sum (map String.length cur).
Proof.
  unfold joinDocs. destruct (is_empty _); intro H; [discriminate|].
  injection H as <-. rewrite <- length_concat_empty. apply length_trim.
Qed.

Lemma pop_front_spec size ov len cur total c2 t2 :
  pop_front size ov len 0 cur total = (c2, t2) ->
  total = list_sum (map String.length cur) ->
  t2 = list_sum (map String.length c2) /\ (t2 + len <= size \/ t2 = 0).
Proof.
  revert total; induction cur as [|d0 rest IH]; intros total H Ht; simpl in H.
  - injection H as <- <-. simpl in *. lia.
  - rewrite Nat.mul_0_r, Nat.add_0_r in H.
    destruct ((ov <? total) || ((size <? total + len) && (0 <? total))) eqn:E.
    + apply (IH _ H). simpl in Ht. lia.
    + injection H as <- <-. split; [exact Ht|].
      apply orb_false_iff in E as [_ E].
      apply andb_false_iff in E as [E|E];
        [apply Nat.ltb_ge in E | apply Nat.ltb_ge in E]; lia.
Qed.

Lemma merge_loop_bound size ov splits cur total docs :
  Forall (fun s => String.length s <= size) splits ->
  total = list_sum (map String.length cur) -> total <= size ->
  Forall (fun s => String.length s <= size) docs ->
  Forall (fun s => String.length s <= size) (merge_loop size ov EmptyString splits cur total docs).
Proof.
  revert cur total docs.
  induction splits as [|d rest IH]; intros cur total docs Hs Ht Hle Hd; simpl.
  - apply Forall_app; split; [exact Hd|].
    destruct (joinDocs cur EmptyString) as [s|] eqn:J; simpl; [|constructor].
    constructor; [|constructor]. pose proof (joinDocs_length _ _ J); lia.
  - inversion Hs as [|? ? Hd0 Hrest]; subst.
    rewrite Nat.mul_0_r, Nat.add_0_r.
    destruct (size <? list_sum (map String.length cur) + String.length d) eqn:E.
    + destruct cur as [|c0 cur'].
      * apply IH; auto; simpl; lia.
      * destruct (pop_front size ov (String.length d) 0 (c0 :: cur')
                    (list_sum (map String.length (c0 :: cur')))) as [c2 t2] eqn:P.
        destruct (pop_front_spec _ _ _ _ _ _ _ P eq_refl) as [Ht2 Hb].
        apply IH; auto.
        -- rewrite map_app, list_sum_app; simpl; lia.
        -- lia.
        -- apply Forall_app; split; [exact Hd|].
           destruct (joinDocs (c0 :: cur') EmptyString) as [s|] eqn:J; simpl; [|constructor].
           constructor; [|constructor]. pose proof (joinDocs_length _ _ J); lia.
    + apply Nat.ltb_ge in E. apply IH; auto.
      rewrite map_app, list_sum_app; simpl; lia.
Qed.

Lemma pick_separator_empty seps dflt text :
  In EmptyString seps ->
  pick_separator seps dflt text = (EmptyString, None) \/
  exists s rest, pick_separator seps dflt text = (s, Some rest) /\ In EmptyString rest.
Proof.
  induction seps as [|s rest IH]; intro Hin; [destruct Hin|]. simpl.
  destruct (is_empty s) eqn:E.
  - left. unfold is_empty in E. apply String.eqb_eq in E. subst. reflexivity.
  - assert (Hr : In EmptyString rest).
    { destruct Hin as [->|Hin]; [simpl in E; discriminate E|exact Hin]. }
    destruct (includes s text); [right; exists s, rest; auto|apply IH; exact Hr].
Qed.

Lemma chars_length text s : In s (chars text) -> String.length s = 1.
Proof.
  induction text as [|c t IH]; simpl; [intros []|].
  intros [<-|H]; [reflexivity|auto].
Qed.

Lemma splitOnSeparator_empty text s :
  In s (splitOnSeparator text EmptyString) -> String.length s = 1.
Proof. unfold splitOnSeparator; simpl. intro H. apply filter_In in H as [H _]. eapply chars_length; eauto. Qed.

Lemma split_go_bound size ov ns recur splits good final :
  Forall (fun s => String.length s <= size) final ->
  Forall (fun s => String.length s < size) good ->
  (forall s, In s splits -> size <= String.length s ->
     Forall (fun s => String.length s <= size)
       (match ns with None => [s] | Some l => recur s l end)) ->
  Forall (fun s => String.length s <= size) (split_go size ov EmptyString ns recur splits good final).
Proof.
  assert (Hflush : forall good, Forall (fun s => String.length s < size) good ->
            Forall (fun s => String.length s <= size)
              (match good with [] => [] | _ :: _ => mergeSplits size ov good EmptyString end)).
  { intros [|g gs] Hg; [constructor|]. unfold mergeSplits.
    apply merge_loop_bound;
      [eapply Forall_impl; [|exact Hg]; simpl; intros; lia | reflexivity | lia | constructor]. }
  revert good final; induction splits as [|s rest IH]; intros good final Hf Hg Hr; simpl.
  - apply Forall_app; auto.
  - destruct (String.length s <? size) eqn:E.
    + apply IH; auto.
      * apply Forall_app; split; auto. constructor; [apply Nat.ltb_lt; exact E|constructor].
      * intros; apply Hr; simpl; auto.
    + apply Nat.ltb_ge in E. apply IH; auto.
      * apply Forall_app; split; [apply Forall_app; split; auto|]. apply Hr; simpl; auto.
      * intros; apply Hr; simpl; auto.
Qed.

Lemma splitText_aux_bound fuel size ov text seps :
  0 < size -> In EmptyString seps ->
  Forall (fun s => String.length s <= size) (splitText_aux fuel size ov text seps).
Proof.
  intro Hsize; revert text seps; induction fuel as [|fuel IH]; intros text seps Hin;
    simpl; [constructor|].
  destruct (pick_separator_empty seps (last_separator seps) text Hin)
    as [E|[s [rest [E Hr]]]]; rewrite E; unfold keepSeparator;
    (apply split_go_bound; [constructor|constructor|]).
  - intros s' Hs' Hbig. apply splitOnSeparator_empty in Hs'.
    constructor; [lia|constructor].
  - intros s' _ _. apply IH; exact Hr.
Qed.

Lemma splitText_bound size ov text :
  0 < size -> Forall (fun s => String.length s <= size) (splitText size ov text).
Proof. intro H; apply splitText_aux_bound; [exact H|simpl; auto]. Qed.

Lemma validate_loop_In chunks acc c :
  In c (validate_loop chunks acc) ->
  In c acc \/
  exists c0, In c0 chunks /\
    let content := trim (pageContent c0) in
    ((10 <= String.length content <= 1500 /\ c = mkChunk content (pageNumber c0)) \/
     (1500 < String.length content /\ pageNumber c = pageNumber c0 /\
      In (pageContent c) (splitText 1500 50 content))).
Proof.
  revert acc; induction chunks as [|c0 rest IH]; intros acc H; simpl in H; [left; exact H|].
  destruct (String.length (trim (pageContent c0)) <? 10) eqn:E1;
    [|destruct (1500 <? String.length (trim (pageContent c0))) eqn:E2];
    destruct (IH _ H) as [H'|[c1 [Hin Hc]]];
    try (right; exists c1; split; [right; exact Hin|exact Hc]).
  - left; exact H'.
  - apply in_app_or in H' as [H'|H']; [left; exact H'|].
    right; exists c0; split; [left; reflexivity|]. cbv zeta. right.
    apply Nat.ltb_lt in E2. split; [exact E2|].
    unfold splitOversizedChunk, splitDocuments in H'.
    change (1500 <=? 50) with false in H'. cbv iota in H'. simpl flat_map in H'.
    rewrite app_nil_r in H'. apply in_map_iff in H' as [t [<- Ht]].
    simpl. split; [reflexivity|exact Ht].
  - apply in_app_or in H' as [H'|H']; [left; exact H'|].
    right; exists c0; split; [left; reflexivity|]. cbv zeta. left.
    apply Nat.ltb_ge in E1. apply Nat.ltb_ge in E2.
    destruct H' as [<-|[]]. split; [lia|reflexivity].
Qed.

(* ------------------------------------------------------------------ *)
(** ** Instances of the theorems with hypotheses *)

Lemma content_hash_unique_witness :
  hashes_unique (registry after_failure) /\
  hashes_unique (registry (fold_left step [OpTrigger "pdfs/h-2-a.pdf" "a.pdf" "h" None;
                                          OpRetry 1] after_failure)) /\
  (forall k fn fh u, findByHash (registry after_failure) fh <> None ->
     registry (snd (triggerProcessing after_failure k fn fh u)) = registry after_failure).
Proof.
  assert (Hu : hashes_unique (registry after_failure))
    by (simpl; constructor; [simpl; tauto|constructor]).
  split; [exact Hu|].
  apply (content_hash_unique after_failure
           [OpTrigger "pdfs/h-2-a.pdf" "a.pdf" "h" None; OpRetry 1]).
  exact Hu.
Defined.

Lemma empty_document_fails_witness :
  (forall n, n < 6 -> env_ok env_blank n = true) /\
  validateChunks (chunks_of (env_pages env_blank)) = [] /\
  env_ok env_blank 6 = true /\
  process env_blank job1 (init_world [row_failed]) =
  (Err no_valid_chunks,
   mkWorld [CUpdateProgress 10; CDownload (objectKey job1); CWriteTemp; CUpdateProgress 30;
            CLoad; CUnlink; CUpdateStatus (fileHash job1) Failed (Some 0) (Some no_valid_chunks)]
           false (updateStatus [row_failed] (fileHash job1) Failed (Some 0) (Some no_valid_chunks))
           false []).
Proof.
  split; [intros n _; reflexivity|].
  split; [vm_compute; reflexivity|].
  split; [reflexivity|].
  apply (empty_document_fails env_blank job1 [row_failed]);
    [intros n _; reflexivity | vm_compute; reflexivity | reflexivity].
Defined.

Lemma failure_sets_chunk_count_zero_witness :
  process (env_failing [1]) job1 (init_world [row_failed]) =
    (Err "Storage download failed: boom"%string,
     snd (process (env_failing [1]) job1 (init_world [row_failed]))) /\
  exists msg n,
    nth_error (calls (snd (process (env_failing [1]) job1 (init_world [row_failed])))) n =
      Some (CUpdateStatus (fileHash job1) Failed (Some 0) (Some msg)) /\
    (env_ok (env_failing [1]) n = true ->
     "Storage download failed: boom"%string = msg /\
     forall r, In r (db (snd (process (env_failing [1]) job1 (init_world [row_failed])))) ->
       content_hash r = fileHash job1 ->
       status r = Failed /\ chunk_count r = Some 0 /\ error_message r = Some msg).
Proof.
  split; [vm_compute; reflexivity|].
  apply (failure_sets_chunk_count_zero (env_failing [1]) job1 (init_world [row_failed])).
  vm_compute; reflexivity.
Defined.

Lemma temp_file_removed_unless_unlink_fails_witness :
  let w := snd (process (env_failing [5; 6]) job1 (init_world [row_failed])) in
  temp_exists w = true /\ In CUnlink (calls w) /\ unlinks_failed (env_failing [5; 6]) w.
Proof.
  cbv zeta. split; [vm_compute; reflexivity|].
  apply (temp_file_removed_unless_unlink_fails (env_failing [5; 6]) job1 [row_failed]).
  vm_compute; reflexivity.
Defined.

(* ================================================================== *)
(** * Further properties of the code *)

(* ------------------------------------------------------------------ *)
(** ** Registry: insert and lookup *)

Lemma find_app_none {A} (f : A -> bool) (l l2 : list A) :
  existsb f l = false -> find f (l ++ l2) = find f l2.
Proof.
  induction l as [|x l IH]; simpl; [reflexivity|].
  destruct (f x); simpl; [discriminate|exact IH].
Qed.

(** X1: a successful [create] appends one row, which is then what
    [findByHash] returns for its hash and [findByJobId] for its job id. *)
Theorem create_then_find (t : table) (d : NewUpload) (t' : table) :
  create t d = Ok t' ->
  let row := mkUpload (List.length t) (n_content_hash d) (n_original_filename d)
               (n_uploaded_by d) (n_job_id d) (n_r2_object_key d) (n_status d)
               None None in
  t' = t ++ [row] /\ findByHash t' (n_content_hash d) = Some row /\
  findByJobId t' (n_job_id d) = Some row.
Proof.
  unfold create.
  destruct (existsb (fun r => String.eqb (content_hash r) (n_content_hash d)) t) eqn:E1;
    [discriminate|].
  destruct (existsb (fun r => Nat.eqb (job_id r) (n_job_id d)) t) eqn:E2; [discriminate|].
  intro H; injection H as <-. cbv zeta.
  split; [reflexivity|split].
  - unfold findByHash; rewrite find_app_none by exact E1; simpl.
    rewrite String.eqb_refl; reflexivity.
  - unfold findByJobId; rewrite find_app_none by exact E2; simpl.
    rewrite Nat.eqb_refl; reflexivity.
Qed.

Lemma map_job_id_updateStatus t h st cc em :
  map job_id (updateStatus t h st cc em) = map job_id t.
Proof.
  induction t as [|r t IH]; simpl; [reflexivity|].
  destruct (String.eqb (content_hash r) h); simpl; rewrite IH; reflexivity.
Qed.

Lemma same_job_ids_refl w : same_job_ids w w.
Proof. reflexivity. Qed.

Lemma same_job_ids_trans a b c : same_job_ids a b -> same_job_ids b c -> same_job_ids a c.
Proof. unfold same_job_ids; congruence. Qed.

Lemma same_job_ids_external env c : stable same_job_ids (external env c).
Proof.
  intro w; rewrite run_external.
  destruct (env_ok env (List.length (calls w))); simpl;
    [|destruct c; simpl; try reflexivity; destruct (env_write_partial env); reflexivity].
  destruct c; try reflexivity. apply map_job_id_updateStatus.
Qed.

Ltac stable_job_ids :=
  repeat (first
    [ stable_step same_job_ids_refl same_job_ids_trans
    | apply same_job_ids_external
    | solve [intro w; reflexivity]
    | progress unfold updateProgress, downloadFile, writeFile, unlink, load,
        embedDocuments, embedQuery, upsert, svc_updateStatus, deleteFile,
        embedChunksIndividually, set_tempPath, get_tempPath, get_embs,
        set_embs, push_emb, fetch_stage, load_stage, embed_stage,
        store_stage, finalize_stage, process_body, process_failed ]).

Lemma process_same_job_ids env d : stable same_job_ids (process env d).
Proof.
  unfold process. stable_job_ids.
  apply stable_embed_loop; try apply same_job_ids_refl; try apply same_job_ids_trans;
    intros; stable_job_ids.
Qed.

Lemma create_job_ids t dd t' :
  create t dd = Ok t' -> job_ids_unique t -> job_ids_unique t'.
Proof.
  unfold create, job_ids_unique.
  destruct (existsb (fun r => String.eqb (content_hash r) (n_content_hash dd)) t);
    [discriminate|].
  destruct (existsb (fun r => Nat.eqb (job_id r) (n_job_id dd)) t) eqn:E; [discriminate|].
  intros H Hu; injection H as <-. rewrite map_app; simpl.
  apply NoDup_snoc; [exact Hu|].
  intro Hin. apply in_map_iff in Hin as [r [Hr Hin]].
  assert (Hx : existsb (fun r => Nat.eqb (job_id r) (n_job_id dd)) t = true).
  { apply existsb_exists; exists r; split; [exact Hin|apply Nat.eqb_eq; exact Hr]. }
  congruence.
Qed.

Lemma step_job_ids s o : job_ids_unique (registry s) -> job_ids_unique (registry (step s o)).
Proof.
  intro Hu. destruct o as [now fn fh|k fn fh u|j|env d]; simpl.
  - unfold getUploadUrl. destruct (findByHash (registry s) fh) as [e|]; [destruct (status e)|];
      exact Hu.
  - unfold triggerProcessing.
    destruct (findByHash (registry s) fh) as [e|]; [destruct (status_eqb (status e) Processing)|];
      [exact Hu| |]; simpl;
      match goal with
      | |- context [create ?t ?dd] => destruct (create t dd) as [t'|] eqn:C; simpl;
          [eapply create_job_ids; eauto|exact Hu]
      end.
  - unfold retryJob. destruct (getJob (queue s) j) as [job|]; [|exact Hu].
    destruct (negb (terminal (jstate job))); [exact Hu|]. simpl.
    match goal with
    | |- context [create ?t ?dd] => destruct (create t dd) as [t'|] eqn:C; simpl;
        [eapply create_job_ids; eauto|exact Hu]
    end.
  - unfold job_ids_unique. rewrite (process_same_job_ids env d (init_world (registry s))).
    exact Hu.
Qed.

(** X3: no sequence of intake, trigger, retry and worker runs gives two
    rows the same job id. *)
Theorem job_id_unique (s : State) (ops : list Op) :
  job_ids_unique (registry s) -> job_ids_unique (registry (fold_left step ops s)).
Proof.
  revert s; induction ops as [|o ops IH]; intros s Hu; simpl; [exact Hu|].
  apply IH, step_job_ids, Hu.
Qed.

(* ------------------------------------------------------------------ *)
(** ** White space of the valid chunks *)

Lemma drop_ws_head l : nows_head (drop_ws l).
Proof.
  induction l as [|c l IH]; simpl; [exact I|].
  destruct (is_ws c) eqn:E; [exact IH|exact E].
Qed.

Lemma drop_ws_id l : nows_head l -> drop_ws l = l.
Proof. destruct l as [|c l]; simpl; [reflexivity|intros ->; reflexivity]. Qed.

Lemma drop_ws_suffix l : exists p, l = p ++ drop_ws l.
Proof.
  induction l as [|c l [p Hp]]; simpl; [exists []; reflexivity|].
  destruct (is_ws c); [exists (c :: p); simpl; rewrite <- Hp; reflexivity|exists []; reflexivity].
Qed.

Lemma nows_head_prefix a b : nows_head (a ++ b) -> nows_head a \/ a = [].
Proof. destruct a; simpl; auto. Qed.

Lemma list_ascii_of_string_of_list l : list_ascii_of_string (string_of_list_ascii l) = l.
Proof. induction l as [|c l IH]; simpl; [reflexivity|rewrite IH; reflexivity]. Qed.

Lemma trim_idem s : trim (trim s) = trim s.
Proof.
  unfold trim. rewrite list_ascii_of_string_of_list.
  set (A := drop_ws (list_ascii_of_string s)).
  set (D := drop_ws (rev A)).
  assert (HA : nows_head A) by apply drop_ws_head.
  assert (HD : nows_head D) by apply drop_ws_head.
  destruct (drop_ws_suffix (rev A)) as [p Hp]. fold D in Hp.
  assert (EA : A = rev D ++ rev p) by (rewrite <- rev_app_distr, <- Hp, rev_involutive; reflexivity).
  assert (HB : drop_ws (rev D) = rev D).
  { rewrite EA in HA. destruct (nows_head_prefix _ _ HA) as [H|H];
      [apply drop_ws_id, H|rewrite H; reflexivity]. }
  rewrite HB, rev_involutive, (drop_ws_id D HD). reflexivity.
Qed.

Lemma validate_loop_flat cs acc :
  validate_loop cs acc = acc ++ flat_map spec_validate_one cs.
Proof.
  revert acc; induction cs as [|c cs IH]; intro acc; simpl; [rewrite app_nil_r; reflexivity|].
  unfold spec_validate_one.
  destruct (String.length (trim (pageContent c)) <? 10); [rewrite IH; reflexivity|].
  destruct (1500 <? String.length (trim (pageContent c))); rewrite IH, <- app_assoc;
    [|reflexivity].
  unfold splitOversizedChunk, splitDocuments.
  change (1500 <=? 50) with false. cbv iota. simpl flat_map. rewrite app_nil_r.
  reflexivity.
Qed.

Lemma chunks_of_bound pages c :
  In c (chunks_of pages) -> String.length (pageContent c) <= 600.
Proof.
  unfold chunks_of, splitDocuments. change (600 <=? 100) with false. cbv iota.
  intro H. apply in_flat_map in H as [d [_ Hd]]. apply in_map_iff in Hd as [t [<- Ht]].
  pose proof (splitText_bound 600 100 (pageContent d) ltac:(lia)) as B.
  rewrite Forall_forall in B. exact (B t Ht).
Qed.

(** C3: the validate-and-split step treats every initial chunk as the claim
    describes ([spec_validate_one]): a chunk whose trimmed text has fewer
    than 10 characters is dropped, one whose trimmed text exceeds 1500
    characters is replaced by the pieces of the 1500/50 split of that text
    (the split never throws, so the fallback to the original chunk is never
    taken), and any other chunk is kept, trimmed. The initial chunks the
    worker has are the 600/100 split of the loaded pages ([chunks_of]); on
    them every valid chunk's text is trimmed and has between 10 and 1500
    characters (at most 600, in fact). *)
Theorem validateChunks_bounds (cs pages : list DocChunk) :
  validateChunks cs = flat_map spec_validate_one cs /\
  (forall c, In c (validateChunks (chunks_of pages)) ->
     trim (pageContent c) = pageContent c /\
     10 <= String.length (pageContent c) <= 1500 /\
     String.length (pageContent c) <= 600).
Proof.
  split; [apply validate_loop_flat|].
  intros c H. unfold validateChunks in H. rewrite validate_loop_flat in H.
  simpl in H. apply in_flat_map in H as [c0 [Hin Hc]].
  pose proof (chunks_of_bound _ _ Hin) as B.
  pose proof (length_trim (pageContent c0)) as T.
  unfold spec_validate_one in Hc.
  destruct (String.length (trim (pageContent c0)) <? 10) eqn:E1; [destruct Hc|].
  destruct (1500 <? String.length (trim (pageContent c0))) eqn:E2.
  - apply Nat.ltb_lt in E2. lia.
  - apply Nat.ltb_ge in E1. destruct Hc as [<-|[]]. simpl.
    split; [apply trim_idem|]. lia.
Qed.

Lemma joinDocs_tidy l sep x : joinDocs l sep = Some x -> tidy x.
Proof.
  unfold joinDocs. destruct (is_empty (trim (String.concat sep l))) eqn:E; intro H;
    [discriminate|]. injection H as <-. split; [apply trim_idem|].
  intro H; rewrite H in E; discriminate.
Qed.

Lemma opt_list_tidy l sep x : In x (opt_list (joinDocs l sep)) -> tidy x.
Proof.
  destruct (joinDocs l sep) eqn:J; simpl; [intros [<-|[]]; eapply joinDocs_tidy; eauto|intros []].
Qed.

Lemma merge_loop_tidy size ov sep splits cur total docs x :
  (forall y, In y docs -> tidy y) ->
  In x (merge_loop size ov sep splits cur total docs) -> tidy x.
Proof.
  revert cur total docs; induction splits as [|d rest IH]; intros cur total docs Hd Hx; simpl in Hx.
  - apply in_app_or in Hx as [Hx|Hx]; [apply Hd, Hx|eapply opt_list_tidy; eauto].
  - destruct (size <? total + String.length d + List.length cur * String.length sep).
    + destruct cur as [|c0 cur'].
      * eapply IH; [exact Hd|exact Hx].
      * destruct (pop_front size ov (String.length d) (String.length sep) (c0 :: cur') total)
          as [c2 t2].
        eapply IH; [|exact Hx].
        intros y Hy; apply in_app_or in Hy as [Hy|Hy]; [apply Hd, Hy|eapply opt_list_tidy; eauto].
    + eapply IH; [exact Hd|exact Hx].
Qed.

Lemma split_go_tidy size ov sep ns recur splits good final x :
  (forall y, In y final -> tidy y) ->
  (forall s, In s splits -> size <= String.length s ->
     forall y, In y (match ns with None => [s] | Some l => recur s l end) -> tidy y) ->
  In x (split_go size ov sep ns recur splits good final) -> tidy x.
Proof.
  assert (Hflush : forall good y,
            In y (match good with [] => [] | _ :: _ => mergeSplits size ov good sep end) ->
            tidy y).
  { intros [|g gs] y Hy; [destruct Hy|]. eapply merge_loop_tidy; [|exact Hy]. intros z []. }
  revert good final; induction splits as [|s rest IH]; intros good final Hf Hr Hx; simpl in Hx.
  - apply in_app_or in Hx as [Hx|Hx]; [apply Hf, Hx|eapply Hflush; eauto].
  - destruct (String.length s <? size) eqn:E.
    + eapply IH; [exact Hf| |exact Hx]. intros; eapply Hr; [right| |]; eauto.
    + apply Nat.ltb_ge in E. eapply IH; [| |exact Hx].
      * intros y Hy. apply in_app_or in Hy as [Hy|Hy];
          [apply in_app_or in Hy as [Hy|Hy]; [apply Hf, Hy|eapply Hflush; eauto]|].
        eapply Hr; [left; reflexivity|exact E|exact Hy].
      * intros; eapply Hr; [right| |]; eauto.
Qed.

Lemma splitText_aux_tidy fuel size ov text seps x :
  2 <= size -> In EmptyString seps ->
  In x (splitText_aux fuel size ov text seps) -> tidy x.
Proof.
  intro Hsize; revert text seps x; induction fuel as [|fuel IH]; intros text seps x Hin Hx;
    simpl in Hx; [destruct Hx|].
  destruct (pick_separator_empty seps (last_separator seps) text Hin)
    as [E|[s [rest [E Hr]]]]; rewrite E in Hx; unfold keepSeparator in Hx;
    revert Hx; apply split_go_tidy; [intros y []| |intros y []|].
  - intros s' Hs' Hbig. apply splitOnSeparator_empty in Hs'. lia.
  - intros s' _ _ y Hy. eapply IH; [exact Hr|exact Hy].
Qed.

Lemma splitText_tidy size ov text x :
  2 <= size -> In x (splitText size ov text) -> tidy x.
Proof. intros H; apply splitText_aux_tidy; [exact H|simpl; auto]. Qed.

(** X14: every chunk of the valid-chunk list is non-empty and has no
    leading or trailing white space: initial chunks are kept trimmed, and
    the pieces of the 1500/50 re-split are trimmed and non-empty. *)
Theorem validateChunks_tidy (cs : list DocChunk) (c : DocChunk) :
  In c (validateChunks cs) ->
  trim (pageContent c) = pageContent c /\ pageContent c <> EmptyString.
Proof.
  intro H. destruct (validate_loop_In cs [] c H) as [[]|[c0 [_ Hc]]]. cbv zeta in Hc.
  destruct Hc as [[Hlen ->]|[_ [_ Hin]]]; simpl.
  - split; [apply trim_idem|]. intro E; rewrite E in Hlen; simpl in Hlen; lia.
  - apply (splitText_tidy 1500 50 _ _ ltac:(lia) Hin).
Qed.

(* ------------------------------------------------------------------ *)
(** ** The one-by-one embedding fallback *)

Lemma query_results_app env l1 l2 n :
  query_results env (l1 ++ l2) n =
  query_results env l1 n ++ query_results env l2 (n + List.length l1).
Proof.
  revert n; induction l1 as [|c l1 IH]; intro n; simpl.
  - rewrite Nat.add_0_r; reflexivity.
  - replace (n + S (List.length l1)) with (S n + List.length l1) by lia.
    destruct c; rewrite IH; reflexivity.
Qed.

Lemma embed_loop_run env cs i n w :
  let '(r, w') := embed_loop env cs i n w in
  r = Ok tt /\ temp_exists w' = temp_exists w /\ db w' = db w /\ tempPath w' = tempPath w /\
  exists delta, calls w' = calls w ++ delta /\
    filter is_query delta = map (fun c => CEmbedQuery (pageContent c)) cs /\
    ((forall j p, nth_error delta j = Some (CUpdateProgress p) ->
                  env_ok env (List.length (calls w) + j) = true) ->
     embs w' = embs w ++ query_results env delta (List.length (calls w))).
Proof.
  revert i w; induction cs as [|c cs IH]; intros i w; cbn [embed_loop].
  - rewrite run_ret. repeat split; auto. exists []. rewrite app_nil_r. repeat split; auto.
    intros _. rewrite app_nil_r; reflexivity.
  - set (p := 50 + Nat.div (i * 30) n).
    rewrite run_bind, run_try_catch, run_bind. unfold embedQuery.
    rewrite run_bind, run_external.
    destruct (env_ok env (List.length (calls w))) eqn:Q; cbv beta iota.
    + rewrite run_ret; cbv beta iota. rewrite run_bind. unfold push_emb at 1; cbv beta iota.
      unfold updateProgress. rewrite run_bind, run_external. simpl. rewrite length_app.
      simpl List.length.
      destruct (env_ok env (List.length (calls w) + 1)) eqn:P; simpl;
        match goal with |- let '(_, _) := embed_loop env cs ?i' n ?w1 in _ =>
          pose proof (IH i' w1) as H1; destruct (embed_loop env cs i' n w1) as [r w']
        end;
        destruct H1 as [Hr [Ht [Hd [Hp [delta [Hc [Hf He]]]]]]]; simpl in *;
        (split; [exact Hr|split; [exact Ht|split; [exact Hd|split; [exact Hp|]]]]);
        exists ([CEmbedQuery (pageContent c); CUpdateProgress p] ++ delta);
        (rewrite Hc, <- !app_assoc; split; [reflexivity|split; [simpl; rewrite Hf; reflexivity|]]);
        intros Hok.
      * rewrite He.
        -- simpl; rewrite Q, !length_app; simpl. rewrite !Nat.add_1_r, <- app_assoc. reflexivity.
        -- intros j p0 Hj. rewrite !length_app; simpl List.length.
           replace (List.length (calls w) + 1 + 1 + j) with (List.length (calls w) + S (S j))
             by lia.
           apply (Hok (S (S j)) p0). exact Hj.
      * exfalso. specialize (Hok 1 p eq_refl). congruence.
    + unfold push_emb at 1. simpl.
      match goal with |- let '(_, _) := embed_loop env cs ?i' n ?w1 in _ =>
        pose proof (IH i' w1) as H1; destruct (embed_loop env cs i' n w1) as [r w']
      end.
      destruct H1 as [Hr [Ht [Hd [Hp [delta [Hc [Hf He]]]]]]]; simpl in *.
      split; [exact Hr|split; [exact Ht|split; [exact Hd|split; [exact Hp|]]]].
      exists ([CEmbedQuery (pageContent c)] ++ delta).
      rewrite Hc, <- !app_assoc. split; [reflexivity|split; [simpl; rewrite Hf; reflexivity|]].
      intros Hok. rewrite He.
      -- simpl; rewrite Q, !length_app; simpl. rewrite !Nat.add_1_r, <- app_assoc. reflexivity.
      -- intros j p0 Hj. rewrite !length_app; simpl List.length.
         replace (List.length (calls w) + 1 + j) with (List.length (calls w) + S j) by lia.
         apply (Hok (S j) p0). exact Hj.
Qed.

Lemma embedChunks_run env cs w :
  let '(r, w') := embedChunksIndividually env cs w in
  r = Ok (embs w') /\
  exists delta, calls w' = calls w ++ delta /\
    filter is_query delta = map (fun c => CEmbedQuery (pageContent c)) cs /\
    ((forall j p, nth_error delta j = Some (CUpdateProgress p) ->
                  env_ok env (List.length (calls w) + j) = true) ->
     embs w' = query_results env delta (List.length (calls w))).
Proof.
  unfold embedChunksIndividually. rewrite run_bind. unfold set_embs at 1. cbv beta iota.
  rewrite run_bind.
  match goal with |- context [embed_loop env cs 0 ?n ?w1] =>
    pose proof (embed_loop_run env cs 0 n w1) as H; destruct (embed_loop env cs 0 n w1) as [r w']
  end.
  destruct H as [-> [_ [_ [_ [delta [Hc [Hf He]]]]]]]. cbv beta iota. unfold get_embs.
  split; [reflexivity|]. exists delta. simpl in Hc. split; [exact Hc|split; [exact Hf|]].
  exact He.
Qed.

Lemma length_query_results env l n :
  List.length (query_results env l n) = List.length (filter is_query l).
Proof.
  revert n; induction l as [|c l IH]; intro n; [reflexivity|].
  destruct c; simpl; rewrite IH; reflexivity.
Qed.

(** X16: when no progress update of [embedChunksIndividually] fails, its
    calls are exactly one [embedQuery] per chunk, in order (with the
    progress updates between them), and it returns one entry per chunk: the
    vector of that chunk's [embedQuery], or [null] when that call failed. *)
Theorem embedChunksIndividually_results (env : Env) (cs : list DocChunk) (w : World) :
  (forall j p, nth_error (calls (snd (embedChunksIndividually env cs w))) j =
               Some (CUpdateProgress p) -> env_ok env j = true) ->
  exists delta,
    calls (snd (embedChunksIndividually env cs w)) = calls w ++ delta /\
    filter is_query delta = map (fun c => CEmbedQuery (pageContent c)) cs /\
    fst (embedChunksIndividually env cs w) =
      Ok (query_results env delta (List.length (calls w))) /\
    List.length (query_results env delta (List.length (calls w))) = List.length cs.
Proof.
  intro Hok. pose proof (embedChunks_run env cs w) as H.
  destruct (embedChunksIndividually env cs w) as [r w']. simpl in Hok |- *.
  destruct H as [-> [delta [Hc [Hf He]]]]. exists delta.
  split; [exact Hc|split; [exact Hf|]].
  rewrite He.
  - split; [reflexivity|]. rewrite length_query_results, Hf, length_map. reflexivity.
  - intros j p Hj. apply (Hok _ p). rewrite Hc, nth_error_app2 by lia.
    replace (List.length (calls w) + j - List.length (calls w)) with j by lia. exact Hj.
Qed.

Lemma embedChunksIndividually_results_witness :
  fst (embedChunksIndividually (env_failing [0]) two_chunks (init_world [])) =
  Ok [None; Some [1]].
Proof.
  assert (Hok : forall j p,
    nth_error (calls (snd (embedChunksIndividually (env_failing [0]) two_chunks
                            (init_world [])))) j = Some (CUpdateProgress p) ->
    env_ok (env_failing [0]) j = true).
  { intros j p H. vm_compute in H.
    destruct j as [|[|[|j]]]; simpl in H; try discriminate H; [reflexivity|].
    destruct j; discriminate H. }
  destruct (embedChunksIndividually_results (env_failing [0]) two_chunks (init_world []) Hok)
    as [delta [Hc [Hf [Hr _]]]].
  rewrite Hr. vm_compute in Hc. simpl in Hc. subst delta. reflexivity.
Defined.

(* ------------------------------------------------------------------ *)
(** ** Runs of [process]: outcome, registry and temporary file *)

Lemma same_db_refl w : same_db w w.
Proof. reflexivity. Qed.

Lemma same_db_trans a b c : same_db a b -> same_db b c -> same_db a c.
Proof. unfold same_db; congruence. Qed.

Lemma same_db_external env c :
  match c with CUpdateStatus _ _ _ _ => False | _ => True end -> stable same_db (external env c).
Proof.
  intros Hc w; rewrite run_external.
  destruct (env_ok env (List.length (calls w))); destruct c; try contradiction;
    try reflexivity; simpl; destruct (env_write_partial env); reflexivity.
Qed.

Ltac stable_db :=
  repeat (first
    [ stable_step same_db_refl same_db_trans
    | apply same_db_external; exact I
    | solve [intro w; reflexivity]
    | progress unfold updateProgress, downloadFile, writeFile, unlink, load,
        embedDocuments, embedQuery, upsert, deleteFile,
        embedChunksIndividually, set_tempPath, get_tempPath, get_embs,
        set_embs, push_emb ]).

Lemma fetch_stage_same_db env d : stable same_db (fetch_stage env d).
Proof. unfold fetch_stage. stable_db. Qed.

Lemma load_stage_same_db env : stable same_db (load_stage env).
Proof. unfold load_stage. stable_db. Qed.

Lemma embed_stage_same_db env cs : stable same_db (embed_stage env cs).
Proof.
  unfold embed_stage. stable_db.
  apply stable_embed_loop; try apply same_db_refl; try apply same_db_trans; intros; stable_db.
Qed.

Lemma store_stage_same_db env d cs es : stable same_db (store_stage env d cs es).
Proof. unfold store_stage. stable_db. Qed.

Lemma finalize_stage_db env d pts w u w' :
  finalize_stage env d pts w = (Ok u, w') ->
  db w' = updateStatus (db w) (fileHash d) Completed (Some (List.length pts)) None.
Proof.
  assert (Hs : stable same_db (updateProgress env 95 ;; deleteFile env (objectKey d) ;;
                               updateProgress env 100)) by stable_db.
  unfold finalize_stage. rewrite run_bind. unfold svc_updateStatus.
  rewrite run_bind, run_external.
  destruct (env_ok env (List.length (calls w))); cbv beta iota; [|discriminate].
  rewrite run_ret; cbv beta iota. intro H.
  match type of H with ?m ?W = _ => pose proof (Hs W) as D; rewrite H in D end.
  unfold same_db in D; simpl in D. exact D.
Qed.

Lemma process_failed_not_ok env d msg w r w' : process_failed env d msg w <> (Ok r, w').
Proof.
  unfold process_failed, get_tempPath, svc_updateStatus, unlink.
  rewrite run_bind; cbv beta iota. rewrite run_bind.
  destruct (tempPath w).
  - rewrite run_try_catch, run_bind, run_external.
    destruct (env_ok env (List.length (calls w))); cbv beta iota;
      [rewrite run_ret; cbv beta iota|]; cbv beta iota;
      [|rewrite run_ret; cbv beta iota];
      rewrite !run_bind, run_external;
      (match goal with |- context [env_ok env ?n] => destruct (env_ok env n) end);
      cbv beta iota; [rewrite run_ret; cbv beta iota; rewrite run_throw| |rewrite run_ret; cbv beta iota; rewrite run_throw|];
      discriminate.
  - rewrite run_ret; cbv beta iota. rewrite !run_bind, run_external.
    destruct (env_ok env (List.length (calls w))); cbv beta iota;
      [rewrite run_ret; cbv beta iota; rewrite run_throw|]; discriminate.
Qed.

Lemma load_stage_ok_temp env w cs w' :
  load_stage env w = (Ok cs, w') -> temp_exists w' = false /\ tempPath w' = false.
Proof.
  unfold load_stage, updateProgress, load, unlink, set_tempPath, bind, ret, throw, external.
  case_calls; intro H; try discriminate H; injection H as _ <-; split; reflexivity.
Qed.

Lemma process_ok_run (env : Env) (d : PdfJobData) (t : table) (r : ProcessResult)
    (w : World) :
  process env d (init_world t) = (Ok r, w) ->
  r_status r = "success"%string /\ r_fileHash r = fileHash d /\
  totalChunks r = List.length (chunks_of (env_pages env)) /\
  validateChunks (chunks_of (env_pages env)) <> [] /\
  (exists pts, filter is_upsert (calls w) = [CUpsert pts] /\
               processedChunks r = List.length pts) /\
  db w = updateStatus t (fileHash d) Completed (Some (processedChunks r)) None /\
  temp_exists w = false.
Proof.
  intro H. unfold process in H. rewrite run_try_catch in H.
  destruct (process_body env d (init_world t)) as [[r0|e] w0] eqn:B;
    [injection H as <- <-|exfalso; exact (process_failed_not_ok env d e w0 r w H)].
  unfold process_body in B. rewrite run_bind in B.
  pose proof (fetch_stage_quiet env d (init_world t)) as Q1.
  pose proof (fetch_stage_same_db env d (init_world t)) as D1.
  destruct (fetch_stage env d (init_world t)) as [[u|e] w1]; cbn [snd] in Q1, D1;
    cbv beta iota in B; [|discriminate B].
  rewrite run_bind in B.
  pose proof (load_stage_quiet env w1) as Q2.
  pose proof (load_stage_same_db env w1) as D2.
  destruct (load_stage env w1) as [[cs|e] w2] eqn:E2; cbn [snd] in Q2, D2;
    cbv beta iota in B; [|discriminate B].
  rewrite (load_stage_result env w1 cs w2 E2) in B.
  destruct (load_stage_ok_temp env w1 _ w2 E2) as [T2 P2].
  rewrite run_bind in B.
  set (vc := validateChunks (chunks_of (env_pages env))) in *.
  destruct (Nat.eqb (List.length vc) 0) eqn:Z; [rewrite run_throw in B; discriminate B|].
  rewrite run_ret in B; cbv beta iota in B. rewrite run_bind in B.
  pose proof (embed_stage_quiet env vc w2) as Q3.
  pose proof (embed_stage_same_db env vc w2) as D3.
  pose proof (embed_stage_same_temp env vc w2) as T3.
  destruct (embed_stage env vc w2) as [[es|e] w3]; cbn [snd] in Q3, D3, T3;
    cbv beta iota in B; [|discriminate B].
  assert (W3 : writes w3 = ([], []))
    by (rewrite (quiet_writes _ _ (quiet_trans _ _ _ (quiet_trans _ _ _ Q1 Q2) Q3));
        reflexivity).
  rewrite run_bind in B.
  pose proof (store_stage_writes env d vc es w3) as S4; cbv zeta in S4.
  pose proof (store_stage_same_db env d vc es w3) as D4.
  pose proof (store_stage_same_temp env d vc es w3) as T4.
  destruct (store_stage env d vc es w3) as [[p|e] w4]; cbn [snd] in D4, T4;
    destruct S4 as [_ S4b]; cbv beta iota in B; [|discriminate B].
  destruct (S4b p eq_refl) as [-> S4w]. rewrite W3 in S4w. simpl in S4w.
  set (pts := validPoints (fileHash d) (fileName d) (objectKey d) vc es) in *.
  rewrite run_bind in B.
  pose proof (finalize_stage_writes env d pts w4) as F5.
  pose proof (finalize_stage_same_temp env d pts w4) as T5.
  destruct (finalize_stage env d pts w4) as [[u5|e] w5] eqn:E5; cbn [snd] in F5, T5;
    cbv beta iota in B; [|discriminate B].
  rewrite run_ret in B. injection B as <- <-.
  pose proof (finalize_stage_db env d pts w4 u5 w5 E5) as D5.
  simpl. split; [reflexivity|split; [reflexivity|split; [reflexivity|split]]].
  - intro Hn. rewrite Hn in Z. discriminate Z.
  - split; [|split].
    + exists pts. split; [|reflexivity].
      rewrite S4w in F5. unfold writes in F5. simpl in F5. injection F5 as Hu _. exact Hu.
    + rewrite D5. unfold same_db in *. rewrite D4, D3, D2, D1. reflexivity.
    + destruct T3 as [T3 _], T4 as [T4 _], T5 as [T5 _]. congruence.
Qed.
(** X11: a run of [process] that returns normally returns
    [status: 'success'] with the job's hash, [totalChunks] the number of
    initial chunks and [processedChunks] the number of upserted points; the
    valid-chunk list was not empty, exactly one upsert was issued, the
    registry's rows of the hash are marked completed with that chunk count
    (no other registry change), and the temporary file is gone. *)
Theorem process_success (env : Env) (d : PdfJobData) (t : table) (r : ProcessResult)
    (w : World) :
  process env d (init_world t) = (Ok r, w) ->
  r_status r = "success"%string /\ r_fileHash r = fileHash d /\
  totalChunks r = List.length (chunks_of (env_pages env)) /\
  validateChunks (chunks_of (env_pages env)) <> [] /\
  (exists pts, filter is_upsert (calls w) = [CUpsert pts] /\
               processedChunks r = List.length pts) /\
  db w = updateStatus t (fileHash d) Completed (Some (processedChunks r)) None /\
  temp_exists w = false.
Proof. exact (process_ok_run env d t r w). Qed.


Lemma process_success_witness :
  match process (env_failing []) job1 (init_world [row_failed]) with
  | (Ok r, w) => r_status r = "success"%string /\
                 db w = updateStatus [row_failed] "h" Completed (Some (processedChunks r)) None
  | _ => False
  end.
Proof.
  destruct (process (env_failing []) job1 (init_world [row_failed])) as [[r|e] w] eqn:E;
    [|vm_compute in E; discriminate E].
  destruct (process_success (env_failing []) job1 [row_failed] r w E)
    as [Hs [_ [_ [_ [_ [Hd _]]]]]].
  split; [exact Hs|exact Hd].
Defined.

(** X12: when the download fails (the progress update before it and the
    status update after it succeed), [process] issues no file write, load
    or embedding call; it fails with [Storage download failed: ] followed by
    the storage error, and marks the hash's rows failed with chunk count 0
    and that message; the temporary file was never created. *)
Theorem download_failure (env : Env) (d : PdfJobData) (t : table) :
  env_ok env 0 = true -> env_ok env 1 = false -> env_ok env 2 = true ->
  let msg := ("Storage download failed: " ++ env_msg env 1)%string in
  process env d (init_world t) =
  (Err msg,
   mkWorld [CUpdateProgress 10; CDownload (objectKey d);
            CUpdateStatus (fileHash d) Failed (Some 0) (Some msg)]
     false (updateStatus t (fileHash d) Failed (Some 0) (Some msg)) false []).
Proof.
  intros H0 H1 H2. cbv zeta.
  unfold process, process_body, fetch_stage, process_failed, updateProgress, downloadFile,
    svc_updateStatus, get_tempPath, try_catch, bind, ret, throw, external.
  simpl. rewrite H0. simpl. rewrite H1. simpl. rewrite H2. reflexivity.
Qed.

Lemma download_failure_witness :
  let msg := ("Storage download failed: " ++ env_msg (env_failing [1]) 1)%string in
  process (env_failing [1]) job1 (init_world [row_failed]) =
  (Err msg,
   mkWorld [CUpdateProgress 10; CDownload (objectKey job1);
            CUpdateStatus (fileHash job1) Failed (Some 0) (Some msg)]
     false (updateStatus [row_failed] (fileHash job1) Failed (Some 0) (Some msg)) false []).
Proof. apply (download_failure (env_failing [1]) job1 [row_failed]); reflexivity. Defined.

Lemma other_rows_updateStatus h t st cc em :
  other_rows h (updateStatus t h st cc em) = other_rows h t.
Proof.
  induction t as [|r t IH]; simpl; [reflexivity|].
  destruct (String.eqb (content_hash r) h) eqn:E; simpl; rewrite ?E; simpl; rewrite IH;
    reflexivity.
Qed.

Lemma others_same_refl h w : others_same h w w.
Proof. reflexivity. Qed.

Lemma others_same_trans h a b c : others_same h a b -> others_same h b c -> others_same h a c.
Proof. unfold others_same; congruence. Qed.

Lemma others_same_external env h c :
  match c with CUpdateStatus h0 _ _ _ => h0 = h | _ => True end ->
  stable (others_same h) (external env c).
Proof.
  intros Hc w; rewrite run_external.
  destruct (env_ok env (List.length (calls w))); destruct c; try reflexivity;
    [subst; apply other_rows_updateStatus|]; simpl; destruct (env_write_partial env);
    reflexivity.
Qed.

Ltac stable_others h :=
  repeat (first
    [ stable_step (others_same_refl h) (others_same_trans h)
    | apply others_same_external; first [exact I | reflexivity]
    | solve [intro w; reflexivity]
    | progress unfold updateProgress, downloadFile, writeFile, unlink, load,
        embedDocuments, embedQuery, upsert, svc_updateStatus, deleteFile,
        embedChunksIndividually, set_tempPath, get_tempPath, get_embs,
        set_embs, push_emb, fetch_stage, load_stage, embed_stage,
        store_stage, finalize_stage, process_body, process_failed ]).


Lemma process_others env d : stable (others_same (fileHash d)) (process env d).
Proof.
  unfold process. stable_others (fileHash d).
  apply stable_embed_loop; try apply others_same_refl; try apply others_same_trans;
    intros; stable_others (fileHash d).
Qed.

(** X13: [process] never changes a registry row of another hash: the rows
    whose hash differs from the job's are the same, in the same order,
    after the run, whatever its outcome. *)
Theorem process_other_rows (env : Env) (d : PdfJobData) (t : table) :
  other_rows (fileHash d) (db (snd (process env d (init_world t)))) = other_rows (fileHash d) t.
Proof. apply (process_others env d (init_world t)). Qed.

Lemma findByHash_updateStatus_same t h st cc em :
  findByHash (updateStatus t h st cc em) h =
  option_map (fun r => mkUpload (id r) (content_hash r) (original_filename r) (uploaded_by r)
                         (job_id r) (r2_object_key r) st (set_opt cc (chunk_count r))
                         (set_opt em (error_message r)))
    (findByHash t h).
Proof.
  unfold findByHash. induction t as [|r t IH]; simpl; [reflexivity|].
  destruct (String.eqb (content_hash r) h) eqn:E; simpl; rewrite E; [reflexivity|exact IH].
Qed.

(** X15: after a run of [process] that returns normally, the row of the
    hash (say [e] before the run) is completed with the processed-chunk
    count and otherwise unchanged, so it keeps the [error_message] of an
    earlier failed run; [getUploadUrl] for the hash then answers that the
    file is already processed, carrying that row. *)
Theorem process_success_row (env : Env) (d : PdfJobData) (t : table) (r : ProcessResult)
    (w : World) (e : FileUpload) :
  process env d (init_world t) = (Ok r, w) -> findByHash t (fileHash d) = Some e ->
  let e' := mkUpload (id e) (content_hash e) (original_filename e) (uploaded_by e) (job_id e)
              (r2_object_key e) Completed (Some (processedChunks r)) (error_message e) in
  findByHash (db w) (fileHash d) = Some e' /\
  (forall q now fn,
     fst (getUploadUrl (mkState q (db w)) now fn (fileHash d)) =
     Ok (UDuplicate ("File already processed as " ++ dquote ++ original_filename e
                     ++ dquote)%string true e')).
Proof.
  intros H He. cbv zeta.
  destruct (process_ok_run env d t r w H) as [_ [_ [_ [_ [_ [Hd _]]]]]].
  assert (F : findByHash (db w) (fileHash d) =
              Some (mkUpload (id e) (content_hash e) (original_filename e) (uploaded_by e)
                      (job_id e) (r2_object_key e) Completed (Some (processedChunks r))
                      (error_message e))).
  { rewrite Hd, findByHash_updateStatus_same, He. reflexivity. }
  split; [exact F|]. intros q now fn. unfold getUploadUrl; simpl. rewrite F. reflexivity.
Qed.

Lemma process_success_row_witness :
  match process (env_failing []) job1 (init_world [row_failed]) with
  | (Ok r, w) => findByHash (db w) "h" =
                 Some (mkUpload 0 "h" "a.pdf" None 1 "pdfs/h-1-a.pdf" Completed
                         (Some (processedChunks r)) (Some "boom"%string))
  | _ => False
  end.
Proof.
  destruct (process (env_failing []) job1 (init_world [row_failed])) as [[r|e] w] eqn:E;
    [|vm_compute in E; discriminate E].
  exact (proj1 (process_success_row (env_failing []) job1 [row_failed] r w row_failed
                  E eq_refl)).
Defined.

Lemma create_then_find_witness :
  create [] (mkNew "h" "a.pdf" None 1 "pdfs/h-1-a.pdf" Processing) =
    Ok [mkUpload 0 "h" "a.pdf" None 1 "pdfs/h-1-a.pdf" Processing None None] /\
  findByJobId [mkUpload 0 "h" "a.pdf" None 1 "pdfs/h-1-a.pdf" Processing None None] 1 =
    Some (mkUpload 0 "h" "a.pdf" None 1 "pdfs/h-1-a.pdf" Processing None None).
Proof.
  assert (H : create [] (mkNew "h" "a.pdf" None 1 "pdfs/h-1-a.pdf" Processing) =
              Ok [mkUpload 0 "h" "a.pdf" None 1 "pdfs/h-1-a.pdf" Processing None None])
    by reflexivity.
  split; [exact H|]. exact (proj2 (proj2 (create_then_find _ _ _ H))).
Defined.

Lemma job_id_unique_witness :
  job_ids_unique (registry after_failure) /\
  job_ids_unique (registry (fold_left step [OpRetry 1] after_failure)).
Proof.
  assert (H : job_ids_unique (registry after_failure))
    by (constructor; [intros []|constructor]).
  split; [exact H|]. exact (job_id_unique after_failure [OpRetry 1] H).
Defined.

Lemma validateChunks_tidy_witness :
  In (mkChunk "bbbbb" 1) (validateChunks [mkChunk long_text 1]) /\
  trim "bbbbb" = "bbbbb"%string.
Proof.
  assert (H : In (mkChunk "bbbbb" 1) (validateChunks [mkChunk long_text 1]))
    by (vm_compute; right; left; reflexivity).
  split; [exact H|]. exact (proj1 (validateChunks_tidy _ _ H)).
Defined.
